(** * OrchestrationExecutor: the chain executor of MCPHub

    A shallow embedding of [OrchestrationExecutor.tsx] (the React component
    that runs an ordered chain of MCP servers one after the other) and the
    properties of its run loop.

    The component is a closure over two props, [servers] and
    [orchestrationServers], four [useState] cells and a table of mock
    actions.  The embedding keeps that shape:

    - the four cells are the record [ExecutorState];
    - everything the code reads from or writes to outside its own variables
      ([Date.now], [Math.random], the console, the [onExecutionComplete]
      callback, the successive values handed to [setExecutionSteps]) lives
      in [World], threaded by a small state-and-exception monad [Eff];
    - [await] is sequencing: one run of [executeChain] is followed from its
      call to its end, with no other handler interleaved (the two buttons
      are disabled while [isExecuting] holds);
    - a state setter takes effect at once, and the functional update at the
      end of the run receives the last value written, as React's update
      queue guarantees; [executeChain] calls the function of that update
      once, [executeChainInvoked] any number of times. *)

From Stdlib Require Import List String Ascii ZArith Lia Bool Arith.
From Stdlib Require Import DecimalString DecimalNat.
From Stdlib Require Import QArith.QArith_base QArith.Qround QArith.Qpower.
From Stdlib Require Import QArith.Qfield Lqa.
Import ListNotations.

Local Close Scope Q_scope.
Local Open Scope string_scope.
Local Open Scope list_scope.
Local Open Scope nat_scope.

(* ================================================================== *)
(** ** JavaScript values *)
(* ================================================================== *)

(** What flows from one step to the next is an arbitrary JavaScript value
    ([any] in the source).  The numbers stored in a value are integers:
    every number of the mock table is one, and so are [Date.now()] and
    what [Math.floor] returns. *)
#[local] Set Warnings "-register-all".
Inductive value : Type :=
| VNull
| VUndefined
| VBool (b : bool)
| VNum (n : Z)
| VStr (s : string)
| VArr (items : list value)
| VObj (fields : list (string * value)).

(** A thrown value: an [Error] object with its message, or anything else. *)
Inductive Thrown : Type :=
| ErrorObj (message : string)
| NonError (v : value).

(** [error instanceof Error ? error.message : fallback] *)
Definition messageOr (fallback : string) (error : Thrown) : string :=
  match error with
  | ErrorObj m => m
  | NonError _ => fallback
  end.

(** Own-property lookup in an object literal. *)
Fixpoint getField (k : string) (fields : list (string * value)) : option value :=
  match fields with
  | [] => None
  | (k', v) :: rest => if String.eqb k' k then Some v else getField k rest
  end.

(** [result.data]: a property read throws on [null] and [undefined], yields
    [undefined] where the property is absent. *)
Definition getData (result : value) : Thrown + value :=
  match result with
  | VNull => inl (ErrorObj "Cannot read properties of null (reading 'data')")
  | VUndefined =>
      inl (ErrorObj "Cannot read properties of undefined (reading 'data')")
  | VObj fields =>
      inr (match getField "data" fields with Some v => v | None => VUndefined end)
  | _ => inr VUndefined
  end.

(** Template-literal rendering of a loop index. *)
Definition showNat (n : nat) : string := NilZero.string_of_uint (Nat.to_uint n).

(** [xs.map((x, i) => f(i, x))] *)
Fixpoint mapiFrom {A B : Type} (f : nat -> A -> B) (start : nat) (xs : list A)
  : list B :=
  match xs with
  | [] => []
  | x :: rest => f start x :: mapiFrom f (S start) rest
  end.

Definition mapi {A B : Type} (f : nat -> A -> B) (xs : list A) : list B :=
  mapiFrom f 0 xs.

(* ================================================================== *)
(** ** Data model *)
(* ================================================================== *)

(** [MCPServer] of [types/database.ts], with the fields the executor and
    its rendering read. *)
Module MCPServer.
Record t : Type := mk {
  id : string;
  name : string;
  description : string
}.
End MCPServer.

Inductive StepStatus : Type := pending | running | completed | failed.

Definition StepStatus_eqb (a b : StepStatus) : bool :=
  match a, b with
  | pending, pending | running, running
  | completed, completed | failed, failed => true
  | _, _ => false
  end.

(** [interface ExecutionStep]; an optional field is an [option]. *)
Module ExecutionStep.
Record t : Type := mk {
  id : string;
  serverId : string;
  serverName : string;
  status : StepStatus;
  input : option value;
  output : option value;
  error : option string;
  duration : option Z;
  startTime : option Z
}.

(** [{ ...s, status: 'running', startTime }] *)
Definition toRunning (s : t) (now : Z) : t :=
  mk (id s) (serverId s) (serverName s) running
     (input s) (output s) (error s) (duration s) (Some now).

(** [{ ...s, status: 'completed', output, duration }] *)
Definition toCompleted (s : t) (out : value) (d : Z) : t :=
  mk (id s) (serverId s) (serverName s) completed
     (input s) (Some out) (error s) (Some d) (startTime s).

(** [{ ...s, status: 'failed', error, duration }] *)
Definition toFailed (s : t) (msg : string) (d : Z) : t :=
  mk (id s) (serverId s) (serverName s) failed
     (input s) (output s) (Some msg) (Some d) (startTime s).
End ExecutionStep.

Inductive RunStatus : Type := success | partial | error.

(** The object stored by [setExecutionResults]: the run loop writes
    [{status, totalSteps, completedSteps, totalDuration}], the outer catch
    writes [{status: 'error', error, totalSteps, completedSteps}]. *)
Module Results.
Record t : Type := mk {
  status : RunStatus;
  error : option string;
  totalSteps : nat;
  completedSteps : nat;
  totalDuration : option Z
}.
End Results.

(** The four [useState] cells. [currentStepIndex] is [-1] for "none". *)
Record ExecutorState : Type := mkState {
  isExecuting : bool;
  executionSteps : list ExecutionStep.t;
  currentStepIndex : Z;
  executionResults : option Results.t
}.

(** The state of a freshly mounted component. *)
Definition idle : ExecutorState := mkState false [] (-1)%Z None.

(* ================================================================== *)
(** ** The world around the component *)
(* ================================================================== *)

Inductive ConsoleLevel : Type := Warn | Err.

(** What an observer of one run can see, in the order it happens.
    [EvCall] marks the entry of [executeStep] with the arguments it was
    called with; it has no counterpart in the source text and exists only
    so that "step i was attempted with input v" can be stated. *)
Inductive Event : Type :=
| EvCall (stepIndex : nat) (previousOutput : value)
| EvSetSteps (steps : list ExecutionStep.t)
| EvConsole (level : ConsoleLevel) (msg : string) (arg : option Thrown)
| EvComplete (results : list ExecutionStep.t).

Record World : Type := mkWorld {
  ui : ExecutorState;
  ticks : nat;          (* calls of Date.now() so far *)
  draws : nat;          (* calls of Math.random() so far *)
  trace : list Event    (* oldest first *)
}.

Definition freshWorld : World := mkWorld idle 0 0 [].

(* ================================================================== *)
(** ** A monad for state and exceptions *)
(* ================================================================== *)

Inductive Completion (A : Type) : Type :=
| Normal (a : A)
| Abrupt (e : Thrown).
Arguments Normal {A} a.
Arguments Abrupt {A} e.

Definition Eff (A : Type) : Type := World -> Completion A * World.

Definition ret {A : Type} (a : A) : Eff A := fun w => (Normal a, w).

Definition bind {A B : Type} (m : Eff A) (k : A -> Eff B) : Eff B :=
  fun w =>
    match m w with
    | (Normal a, w') => k a w'
    | (Abrupt e, w') => (Abrupt e, w')
    end.

Definition throw {A : Type} (e : Thrown) : Eff A := fun w => (Abrupt e, w).

(** [try { body } catch (e) { handler(e) }]: what [body] did to the world
    before it threw stays done. *)
Definition tryCatch {A : Type} (body : Eff A) (handler : Thrown -> Eff A)
  : Eff A :=
  fun w =>
    match body w with
    | (Normal a, w') => (Normal a, w')
    | (Abrupt e, w') => handler e w'
    end.

(** [try { body } finally { fin }] *)
Definition tryFinally {A : Type} (body : Eff A) (fin : Eff unit) : Eff A :=
  fun w =>
    match body w with
    | (c, w') =>
        match fin w' with
        | (Normal _, w'') => (c, w'')
        | (Abrupt e, w'') => (Abrupt e, w'')
        end
    end.

Declare Scope eff_scope.
Delimit Scope eff_scope with eff.
Notation "x <- m ;; k" := (bind m (fun x => k))
  (at level 61, m at next level, right associativity) : eff_scope.
Notation "m ;; k" := (bind m (fun _ => k))
  (at level 61, right associativity) : eff_scope.
Local Open Scope eff_scope.

(* ------------------------------------------------------------------ *)
(** *** Primitive effects *)

Definition emit (e : Event) : Eff unit :=
  fun w => (Normal tt, mkWorld (ui w) (ticks w) (draws w) (trace w ++ [e])).

Definition modifyUi (f : ExecutorState -> ExecutorState) : Eff unit :=
  fun w => (Normal tt, mkWorld (f (ui w)) (ticks w) (draws w) (trace w)).

Definition getUi : Eff ExecutorState := fun w => (Normal (ui w), w).

Definition setIsExecuting (b : bool) : Eff unit :=
  modifyUi (fun s =>
    mkState b (executionSteps s) (currentStepIndex s) (executionResults s)).

Definition setExecutionSteps (steps : list ExecutionStep.t) : Eff unit :=
  modifyUi (fun s =>
    mkState (isExecuting s) steps (currentStepIndex s) (executionResults s)) ;;
  emit (EvSetSteps steps).

Definition setCurrentStepIndex (i : Z) : Eff unit :=
  modifyUi (fun s =>
    mkState (isExecuting s) (executionSteps s) i (executionResults s)).

Definition setExecutionResults (r : option Results.t) : Eff unit :=
  modifyUi (fun s =>
    mkState (isExecuting s) (executionSteps s) (currentStepIndex s) r).

Definition consoleWarn (msg : string) : Eff unit :=
  emit (EvConsole Warn msg None).

Definition consoleError (msg : string) (arg : Thrown) : Eff unit :=
  emit (EvConsole Err msg (Some arg)).

(** [await new Promise(resolve => setTimeout(resolve, ms))]: time passes,
    which the clock below accounts for; nothing else happens. *)
Definition sleep : Eff unit := ret tt.

(** Lifting of a computation that only returns or throws. *)
Definition liftSum {A : Type} (r : Thrown + A) : Eff A :=
  match r with
  | inl e => throw e
  | inr a => ret a
  end.

(** [xs.map((x, i) => f(i, x))] where the callback has effects: it is run
    on the elements in order, and a throw ends the traversal. *)
Fixpoint mapiFromM {A B : Type} (f : nat -> A -> Eff B) (start : nat)
    (xs : list A) : Eff (list B) :=
  match xs with
  | [] => ret []
  | x :: rest =>
      y <- f start x ;;
      ys <- mapiFromM f (S start) rest ;;
      ret (y :: ys)
  end.

Definition mapiM {A B : Type} (f : nat -> A -> Eff B) (xs : list A)
  : Eff (list B) :=
  mapiFromM f 0 xs.

(** The callback [(s, i) => i === k ? g(s) : s]. *)
Definition atIndex {A : Type} (k : nat) (g : A -> Eff A) (i : nat) (s : A)
  : Eff A :=
  if Nat.eqb i k then g s else ret s.

(* ================================================================== *)
(** ** Arithmetic on doubles *)
(* ================================================================== *)

(** A JavaScript number is a binary64 double, here the rational it stands
    for; the product of two doubles is the double nearest to the exact
    product, a tie going to the one whose last bit is zero. *)

(** The exponent of the largest power of two that is at most [x], for
    [x] positive. *)
Definition binade (x : Q) : Z :=
  let e := (Z.log2 (Qnum x) - Z.log2 (Zpos (Qden x)))%Z in
  if Qle_bool (Qpower 2 e) x then e else (e - 1)%Z.

(** The nearest integer, a tie going to the even one. *)
Definition roundHalfEven (y : Q) : Z :=
  let f := Qfloor y in
  match Qcompare (y - inject_Z f) (1 # 2) with
  | Lt => f
  | Gt => (f + 1)%Z
  | Eq => if Z.even f then f else (f + 1)%Z
  end.

(** The double nearest to a positive rational: 53 significant bits, and
    an exponent that stops at -1022, below which the doubles are evenly
    spaced.  Overflow is left out: no product below exceeds 10. *)
Definition roundPositive (x : Q) : Q :=
  let quantum := Qpower 2 (Z.max (binade x) (-1022) - 52) in
  (inject_Z (roundHalfEven (x / quantum)) * quantum)%Q.

Definition roundToDouble (x : Q) : Q :=
  match Qcompare x 0 with
  | Eq => 0%Q
  | Gt => roundPositive x
  | Lt => (- roundPositive (- x))%Q
  end.

(** [Math.floor(r * 10) + 1], where [r] is what [Math.random()]
    returned. *)
Definition operationsPerformed (r : Q) : Z :=
  (Qfloor (roundToDouble (r * inject_Z 10)) + 1)%Z.

(* ================================================================== *)
(** ** The mock action table *)
(* ================================================================== *)

(** An action is an async function of the carried value: it resolves with
    a result object or rejects. *)
Definition Action : Type := value -> Thrown + value.

Definition resolved (data : list (string * value)) : Thrown + value :=
  inr (VObj [("success", VBool true); ("data", VObj data)]).

(** The object literal [mockServerExecutions], keyed by server name: its
    eight own keys.  Each of the eight mocks waits and resolves with a
    constant, whatever its input.  A property read on the literal also
    finds what it inherits: that is [lookupExecution] below. *)
Definition mockServerExecutions (name : string) : option Action :=
  if String.eqb name "slack-connector" then
    Some (fun _ => resolved
      [("channels", VArr [VStr "#general"; VStr "#dev"; VStr "#random"]);
       ("messages_sent", VNum 3); ("users_notified", VNum 12)])
  else if String.eqb name "github-integration" then
    Some (fun _ => resolved
      [("repositories", VArr [VStr "repo1"; VStr "repo2"]);
       ("pull_requests", VNum 5); ("issues_created", VNum 2);
       ("commits_analyzed", VNum 23)])
  else if String.eqb name "postgres-client" then
    Some (fun _ => resolved
      [("tables_queried", VNum 4); ("records_processed", VNum 1250);
       ("queries_executed", VNum 8)])
  else if String.eqb name "notion-sync" then
    Some (fun _ => resolved
      [("pages_updated", VNum 7); ("blocks_created", VNum 23);
       ("sync_status", VStr "completed")])
  else if String.eqb name "openai-assistant" then
    Some (fun _ => resolved
      [("tokens_used", VNum 1250); ("responses_generated", VNum 3);
       ("function_calls", VNum 5); ("analysis_complete", VBool true)])
  else if String.eqb name "stripe-payments" then
    Some (fun _ => resolved
      [("payments_processed", VNum 5); ("total_amount", VNum 2450);
       ("subscriptions_created", VNum 2)])
  else if String.eqb name "discord-bot" then
    Some (fun _ => resolved
      [("commands_executed", VNum 8); ("messages_sent", VNum 15);
       ("users_engaged", VNum 23)])
  else if String.eqb name "mongodb-client" then
    Some (fun _ => resolved
      [("documents_processed", VNum 156); ("collections_updated", VNum 3);
       ("indexes_optimized", VNum 2)])
  else None.

(** The property read [mockServerExecutions[name]] of [executeStep]: the
    own key where the literal has one, else the member of that name the
    literal inherits from [Object.prototype].  The prototype belongs to
    the runtime, not to the component: [inherited] stands for it.  A
    member that is no function (the object read under [__proto__]) is an
    action that throws, as calling it does. *)
Definition lookupExecution (inherited : string -> option Action)
    (name : string) : option Action :=
  match mockServerExecutions name with
  | Some executeFn => Some executeFn
  | None => inherited name
  end.

(** An inherited table with the one member [__proto__]: the read yields
    an object, and calling it throws a [TypeError]. *)
Definition inheritedProto (name : string) : option Action :=
  if String.eqb name "__proto__" then
    Some (fun _ => inl (ErrorObj "executeFn is not a function"))
  else None.

(* ================================================================== *)
(** ** The executor *)
(* ================================================================== *)

Section Executor.

(** [Date.now()] and [Math.random()] are oracles: the k-th call returns
    [clock k], resp. [random k].  Nothing is assumed of either. *)
Variable clock : nat -> Z.
Variable random : nat -> Q.

(** The action table, as the lookup [mockServerExecutions[name]] sees it.
    The properties below hold for any table, hence for
    [mockServerExecutions], for the inherited members a lookup also finds
    and for actions that reject. *)
Variable actions : string -> option Action.

(** The props. *)
Variable servers : list MCPServer.t.
Variable orchestrationServers : list string.

Definition dateNow : Eff Z :=
  fun w => (Normal (clock (ticks w)),
            mkWorld (ui w) (S (ticks w)) (draws w) (trace w)).

Definition mathRandom : Eff Q :=
  fun w => (Normal (random (draws w)),
            mkWorld (ui w) (ticks w) (S (draws w)) (trace w)).

(** [onExecutionComplete(results)]: the parent's callback, which counts
    the completed steps and raises a toast, is observed, not run. *)
Definition onExecutionComplete (results : list ExecutionStep.t) : Eff unit :=
  emit (EvComplete results).

(** [servers.find(s => s.id === serverId)] *)
Definition findServer (serverId : string) : option MCPServer.t :=
  find (fun s => String.eqb (MCPServer.id s) serverId) servers.

(** [server?.name || 'Unknown Server'] *)
Definition displayName (server : option MCPServer.t) : string :=
  match server with
  | Some s =>
      if String.eqb (MCPServer.name s) "" then "Unknown Server"
      else MCPServer.name s
  | None => "Unknown Server"
  end.

Definition newStep (serverId : string) : ExecutionStep.t :=
  ExecutionStep.mk ("step-" ++ serverId) serverId
    (displayName (findServer serverId)) pending None None None None None.

Definition initializeExecution : Eff (list ExecutionStep.t) :=
  let steps := map newStep orchestrationServers in
  setExecutionSteps steps ;;
  setCurrentStepIndex (-1)%Z ;;
  setExecutionResults None ;;
  ret steps.

(** [Date.now() - (step.startTime || Date.now())]: the left operand is
    read first; a start time that is unset or [0] is falsy. *)
Definition elapsed (step : ExecutionStep.t) : Eff Z :=
  t1 <- dateNow ;;
  t0 <- match ExecutionStep.startTime step with
        | Some t => if Z.eqb t 0 then dateNow else ret t
        | None => dateNow
        end ;;
  ret (t1 - t0)%Z.

Definition updateAt (stepIndex : nat) (f : ExecutionStep.t -> ExecutionStep.t)
    (steps : list ExecutionStep.t) : list ExecutionStep.t :=
  mapi (fun i s => if Nat.eqb i stepIndex then f s else s) steps.

(** The branch taken when the lookup in the table yields nothing for the
    name of the server. *)
Definition genericExecution (server : MCPServer.t) (step : ExecutionStep.t)
    (stepIndex : nat) (updatedSteps : list ExecutionStep.t) : Eff value :=
  _ <- mathRandom ;;
  sleep ;;
  now <- dateNow ;;
  r <- mathRandom ;;
  let data := VObj [("server_name", VStr (MCPServer.name server));
                    ("execution_time", VNum now);
                    ("status", VStr "completed");
                    ("operations_performed",
                     VNum (operationsPerformed r))] in
  duration <- elapsed step ;;
  let finalSteps :=
    updateAt stepIndex (fun s => ExecutionStep.toCompleted s data duration)
             updatedSteps in
  setExecutionSteps finalSteps ;;
  ret data.

(** In the two [map] calls that read the clock or [result.data], the
    read happens in the callback, at index [stepIndex] only. *)
Definition executeStep (step : option ExecutionStep.t) (stepIndex : nat)
    (steps : list ExecutionStep.t) (previousOutput : value) : Eff value :=
  emit (EvCall stepIndex previousOutput) ;;
  match step with
  | None => throw (ErrorObj ("Invalid step at index " ++ showNat stepIndex))
  | Some step =>
    if String.eqb (ExecutionStep.serverId step) "" then
      throw (ErrorObj ("Invalid step at index " ++ showNat stepIndex))
    else
      match findServer (ExecutionStep.serverId step) with
      | None =>
          throw (ErrorObj ("Server not found: " ++ ExecutionStep.serverId step))
      | Some server =>
          updatedSteps <-
            mapiM (atIndex stepIndex
                     (fun s => now <- dateNow ;;
                               ret (ExecutionStep.toRunning s now)))
                  steps ;;
          setExecutionSteps updatedSteps ;;
          tryCatch
            (match actions (MCPServer.name server) with
             | None => genericExecution server step stepIndex updatedSteps
             | Some executeFn =>
                 result <- liftSum (executeFn previousOutput) ;;
                 duration <- elapsed step ;;
                 finalSteps <-
                   mapiM (atIndex stepIndex
                            (fun s =>
                               data <- liftSum (getData result) ;;
                               ret (ExecutionStep.toCompleted s data duration)))
                         updatedSteps ;;
                 setExecutionSteps finalSteps ;;
                 liftSum (getData result)
             end)
            (fun thrown =>
               duration <- elapsed step ;;
               let failedSteps :=
                 updateAt stepIndex
                   (fun s => ExecutionStep.toFailed s
                               (messageOr "Unknown error" thrown) duration)
                   updatedSteps in
               setExecutionSteps failedSteps ;;
               throw thrown)
      end
  end.

(** The message of the per-step handler of the run loop. *)
Definition stepFailedMsg (i : nat) : string := "Step " ++ showNat i ++ " failed:".

(** The [for] loop of [executeChain] over the indices still to run;
    [previousOutput] is the loop-carried variable.  The assignment to
    [previousOutput] happens only when [executeStep] returns, so the
    handler leaves it as it was. *)
Fixpoint forLoop (currentSteps : list ExecutionStep.t) (indices : list nat)
    (previousOutput : value) : Eff value :=
  match indices with
  | [] => ret previousOutput
  | i :: rest =>
      setCurrentStepIndex (Z.of_nat i) ;;
      previousOutput' <-
        tryCatch
          (out <- executeStep (nth_error currentSteps i) i currentSteps
                              previousOutput ;;
           sleep ;;
           ret out)
          (fun stepError =>
             consoleError (stepFailedMsg i) stepError ;;
             ret previousOutput) ;;
      forLoop currentSteps rest previousOutput'
  end.

Definition countCompleted (steps : list ExecutionStep.t) : nat :=
  List.length (filter (fun s => StepStatus_eqb (ExecutionStep.status s) completed)
                 steps).

(** [steps.reduce((sum, step) => sum + (step.duration || 0), 0)] *)
Definition sumDurations (steps : list ExecutionStep.t) : Z :=
  fold_left
    (fun sum step =>
       (sum + match ExecutionStep.duration step with
              | Some d => d
              | None => 0
              end)%Z)
    steps 0%Z.

(** The functional update that closes the run, its function called
    once. *)
Definition publishOutcome : Eff unit :=
  s <- getUi ;;
  let currentSteps := executionSteps s in
  let completedSteps := countCompleted currentSteps in
  let totalDuration := sumDurations currentSteps in
  setExecutionResults
    (Some (Results.mk
             (if Nat.eqb completedSteps (List.length orchestrationServers)
              then success else partial)
             None (List.length orchestrationServers) completedSteps
             (Some totalDuration))) ;;
  onExecutionComplete currentSteps ;;
  setExecutionSteps currentSteps.

(** The body of the outer [try]. *)
Definition chainBody : Eff unit :=
  steps <- initializeExecution ;;
  sleep ;;
  let previousOutput := VNull in
  let currentSteps := steps in
  forLoop currentSteps (seq 0 (List.length orchestrationServers)) previousOutput ;;
  publishOutcome.

(** The outer [catch]; [staleSteps] is the [executionSteps] of the render
    that created the closure. *)
Definition chainFailed (staleSteps : list ExecutionStep.t) (thrown : Thrown)
  : Eff unit :=
  consoleError "Chain execution failed:" thrown ;;
  setExecutionResults
    (Some (Results.mk error
             (Some (messageOr "Execution failed" thrown))
             (List.length orchestrationServers)
             (countCompleted staleSteps)
             None)).

Definition executeChain : Eff unit :=
  if Nat.eqb (List.length orchestrationServers) 0 then
    consoleWarn "No servers in orchestration chain"
  else
    s <- getUi ;;
    let staleSteps := executionSteps s in
    setIsExecuting true ;;
    tryFinally
      (tryCatch chainBody (chainFailed staleSteps))
      (setIsExecuting false ;; setCurrentStepIndex (-1)%Z).

Definition resetExecution : Eff unit :=
  setExecutionSteps [] ;;
  setCurrentStepIndex (-1)%Z ;;
  setExecutionResults None ;;
  setIsExecuting false.

End Executor.

(* ================================================================== *)
(** ** The closing update, called more than once *)
(* ================================================================== *)

(** [publishOutcome] runs the function handed to [setExecutionSteps]
    once.  React may call such a function more than once, each time on
    the same state (in development under StrictMode it calls it twice).
    What follows is the run with that function called [S extra] times;
    with [extra = 0] it is [executeChain]. *)

Fixpoint invoked (extra : nat) (body : Eff unit) : Eff unit :=
  match extra with
  | 0 => body
  | S fewer => body ;; invoked fewer body
  end.

Section Reinvoked.

Variable clock : nat -> Z.
Variable random : nat -> Q.
Variable actions : string -> option Action.
Variable servers : list MCPServer.t.
Variable orchestrationServers : list string.
Variable extra : nat.

(** What one call of the function does besides returning its argument. *)
Definition updaterEffects (currentSteps : list ExecutionStep.t) : Eff unit :=
  let completedSteps := countCompleted currentSteps in
  let totalDuration := sumDurations currentSteps in
  setExecutionResults
    (Some (Results.mk
             (if Nat.eqb completedSteps (List.length orchestrationServers)
              then success else partial)
             None (List.length orchestrationServers) completedSteps
             (Some totalDuration))) ;;
  onExecutionComplete currentSteps.

Definition publishOutcomeInvoked : Eff unit :=
  s <- getUi ;;
  let currentSteps := executionSteps s in
  invoked extra (updaterEffects currentSteps) ;;
  setExecutionSteps currentSteps.

Definition chainBodyInvoked : Eff unit :=
  steps <- initializeExecution servers orchestrationServers ;;
  sleep ;;
  let previousOutput := VNull in
  let currentSteps := steps in
  forLoop clock random actions servers currentSteps
          (seq 0 (List.length orchestrationServers)) previousOutput ;;
  publishOutcomeInvoked.

Definition executeChainInvoked : Eff unit :=
  if Nat.eqb (List.length orchestrationServers) 0 then
    consoleWarn "No servers in orchestration chain"
  else
    s <- getUi ;;
    let staleSteps := executionSteps s in
    setIsExecuting true ;;
    tryFinally
      (tryCatch chainBodyInvoked (chainFailed orchestrationServers staleSteps))
      (setIsExecuting false ;; setCurrentStepIndex (-1)%Z).

End Reinvoked.

(* ================================================================== *)
(** ** The chain kept by the parent component *)
(* ================================================================== *)

(** The prop [orchestrationServers] is a state cell of the parent, empty
    at first, which three handlers write; the toasts they raise play no
    part here. *)

(** [addToOrchestration]: [includes] guards the append. *)
Definition addToOrchestration (orchestrationServers : list string)
    (serverId : string) : list string :=
  if existsb (String.eqb serverId) orchestrationServers
  then orchestrationServers
  else orchestrationServers ++ [serverId].

(** [removeFromOrchestration]: [filter(id => id !== serverId)] *)
Definition removeFromOrchestration (orchestrationServers : list string)
    (serverId : string) : list string :=
  filter (fun id => negb (String.eqb id serverId)) orchestrationServers.

Inductive ChainEdit : Type :=
| AddToChain (serverId : string)
| RemoveFromChain (serverId : string)
| ClearChain.

Definition applyEdit (orchestrationServers : list string) (e : ChainEdit)
  : list string :=
  match e with
  | AddToChain serverId => addToOrchestration orchestrationServers serverId
  | RemoveFromChain serverId =>
      removeFromOrchestration orchestrationServers serverId
  | ClearChain => []
  end.

(** The chain after a sequence of clicks. *)
Definition chainAfter (edits : list ChainEdit) : list string :=
  fold_left applyEdit edits [].

(* ================================================================== *)
(** ** What is observed of a run *)
(* ================================================================== *)

(** A step whose record is absent, whose [serverId] is empty or whose
    server is not in the catalog throws before any state is written. *)
Definition unresolved (servers : list MCPServer.t)
    (step : option ExecutionStep.t) : Prop :=
  match step with
  | None => True
  | Some st =>
      ExecutionStep.serverId st = ""
      \/ findServer servers (ExecutionStep.serverId st) = None
  end.

(** A step that passes the checks at the head of [executeStep]. *)
Definition resolved_by (servers : list MCPServer.t)
    (step : option ExecutionStep.t) (server : MCPServer.t) : Prop :=
  exists st, step = Some st /\ ExecutionStep.serverId st <> ""
             /\ findServer servers (ExecutionStep.serverId st) = Some server.

(** How a step that reaches the catalog ends: two snapshots are
    published, the second one final for the step. *)
Definition ranAs (i : nat) (steps : list ExecutionStep.t)
    (c : Completion value) (now : Z) (fin : list ExecutionStep.t) : Prop :=
  (exists data d,
      c = Normal data /\
      fin = updateAt i (fun s => ExecutionStep.toCompleted s data d)
              (updateAt i (fun s => ExecutionStep.toRunning s now) steps))
  \/
  (exists e d,
      c = Abrupt e /\
      fin = updateAt i
              (fun s => ExecutionStep.toFailed s (messageOr "Unknown error" e) d)
              (updateAt i (fun s => ExecutionStep.toRunning s now) steps)).

(** The status of step [i] in a step list. *)
Definition statusAt (steps : list ExecutionStep.t) (i : nat) : option StepStatus :=
  option_map ExecutionStep.status (nth_error steps i).

(** [steps] and [base] hold the same records, except perhaps at index
    [i]. *)
Definition agreesOff (i : nat) (steps base : list ExecutionStep.t) : Prop :=
  forall k, k <> i -> nth_error steps k = nth_error base k.

Section Turns.

Variable servers : list MCPServer.t.
Variable currentSteps : list ExecutionStep.t.

(** One turn of the loop at index [i] entered with [p] in
    [previousOutput]: the value carried out of it, what it lets an
    observer see, and the step list it leaves in [executionSteps]
    ([None] when it writes none). *)
Inductive Iteration (i : nat) (p : value)
  : value -> list Event -> option (list ExecutionStep.t) -> Prop :=
| IterUnresolved e :
    unresolved servers (nth_error currentSteps i) ->
    Iteration i p p
      [EvCall i p; EvConsole Err (stepFailedMsg i) (Some e)] None
| IterCompleted server now data d :
    resolved_by servers (nth_error currentSteps i) server ->
    let ran := updateAt i (fun s => ExecutionStep.toRunning s now) currentSteps in
    let fin := updateAt i (fun s => ExecutionStep.toCompleted s data d) ran in
    Iteration i p data [EvCall i p; EvSetSteps ran; EvSetSteps fin] (Some fin)
| IterFailed server now e d :
    resolved_by servers (nth_error currentSteps i) server ->
    let ran := updateAt i (fun s => ExecutionStep.toRunning s now) currentSteps in
    let fin :=
      updateAt i
        (fun s => ExecutionStep.toFailed s (messageOr "Unknown error" e) d) ran in
    Iteration i p p
      [EvCall i p; EvSetSteps ran; EvSetSteps fin;
       EvConsole Err (stepFailedMsg i) (Some e)]
      (Some fin).

(** The turns of a whole loop, one after the other. *)
Inductive LoopRun : list nat -> value -> list Event -> value -> Prop :=
| LoopDone p : LoopRun [] p [] p
| LoopTurn i rest p p1 p2 E1 E2 o :
    Iteration i p p1 E1 o ->
    LoopRun rest p1 E2 p2 ->
    LoopRun (i :: rest) p (E1 ++ E2) p2.

(** What a step list published by the loop looks like: it is the list the
    loop was started with, but for the step of the turn that publishes
    it, which is shown running, completed or failed; and that turn is one
    whose server was found. *)
Definition publishedBy (i : nat) (steps : list ExecutionStep.t) : Prop :=
  (exists server, resolved_by servers (nth_error currentSteps i) server)
  /\ agreesOff i steps currentSteps
  /\ (statusAt steps i = Some running
      \/ statusAt steps i = Some completed
      \/ statusAt steps i = Some failed).

End Turns.

(** The step list in the state after a turn. *)
Definition stepsAfter (o : option (list ExecutionStep.t)) (s : ExecutorState)
  : list ExecutionStep.t :=
  match o with
  | Some fin => fin
  | None => executionSteps s
  end.

(** The outcome object the run loop publishes for a final step list. *)
Definition outcomeOf (orchestrationServers : list string)
    (fin : list ExecutionStep.t) : Results.t :=
  Results.mk
    (if Nat.eqb (countCompleted fin) (List.length orchestrationServers)
     then success else partial)
    None (List.length orchestrationServers) (countCompleted fin)
    (Some (sumDurations fin)).

(** Step [k] was attempted with [v] as carried-forward input. *)
Definition attemptedWith (E : list Event) (k : nat) (v : value) : Prop :=
  In (EvCall k v) E.

(** The handler of the run loop reported the failure of step [k]. *)
Definition stepFailed (E : list Event) (k : nat) : Prop :=
  exists e, In (EvConsole Err (stepFailedMsg k) (Some e)) E.

(** The [t]-th event publishes a step list in which step [i] has status
    [s]. *)
Definition shows (E : list Event) (t i : nat) (s : StepStatus) : Prop :=
  exists steps, nth_error E t = Some (EvSetSteps steps) /\ statusAt steps i = Some s.

(** [statusAt] and [shows] as tests. *)
Definition statusIs (steps : list ExecutionStep.t) (i : nat) (s : StepStatus)
  : bool :=
  match statusAt steps i with
  | Some s' => StepStatus_eqb s' s
  | None => false
  end.

Definition showsb (E : list Event) (t i : nat) (s : StepStatus) : bool :=
  match nth_error E t with
  | Some (EvSetSteps steps) => statusIs steps i s
  | _ => false
  end.

(** Every step list published in [E] passes the test [ok]. *)
Definition allSnapshots (ok : list ExecutionStep.t -> bool) (E : list Event)
  : bool :=
  forallb (fun e => match e with EvSetSteps steps => ok steps | _ => true end) E.

Definition statuses (steps : list ExecutionStep.t) : list StepStatus :=
  map ExecutionStep.status steps.

Definition stepIds (steps : list ExecutionStep.t) : list string :=
  map ExecutionStep.id steps.

(** The steps [initializeExecution] makes for a chain. *)
Definition createdSteps (servers : list MCPServer.t) (chain : list string)
  : list ExecutionStep.t :=
  match initializeExecution servers chain freshWorld with
  | (Normal steps, _) => steps
  | (Abrupt _, _) => []
  end.

(** [durationMs] of a step, zero when unset. *)
Definition durationOrZero (s : ExecutionStep.t) : Z :=
  match ExecutionStep.duration s with
  | Some d => d
  | None => 0%Z
  end.

(** A list of one step, pending and without error. *)
Definition onePendingStep (steps : list ExecutionStep.t) : bool :=
  match steps with
  | [s] =>
      StepStatus_eqb (ExecutionStep.status s) pending
      && match ExecutionStep.error s with
         | None => true
         | Some _ => false
         end
  | _ => false
  end.

(** Step [k] is shown completed by a step list published in [E]. *)
Definition completedDuring (E : list Event) (k : nat) : bool :=
  existsb (fun e => match e with
                    | EvSetSteps steps => statusIs steps k completed
                    | _ => false
                    end) E.

(** The number of steps, of a chain of [n], that completed during the run
    whose events are [E]. *)
Definition completedInRun (E : list Event) (n : nat) : nat :=
  List.length (filter (completedDuring E) (seq 0 n)).

(** The duration recorded for step [k] during the run whose events are
    [E]: the one it carries in the last published list that gives it
    one. *)
Definition durationInRun (E : list Event) (k : nat) : option Z :=
  fold_left
    (fun found e =>
       match e with
       | EvSetSteps steps =>
           match nth_error steps k with
           | Some s =>
               match ExecutionStep.duration s with
               | Some d => Some d
               | None => found
               end
           | None => found
           end
       | _ => found
       end)
    E None.

(** The messages the console received as errors. *)
Definition errorsLogged (E : list Event) : list string :=
  flat_map (fun e => match e with
                     | EvConsole Err msg _ => [msg]
                     | _ => []
                     end) E.

(* ================================================================== *)
(** ** The claims of the specification, as it words them *)
(* ================================================================== *)

(** The classification law as the specification words it, for the
    outcome [r] of a run of [n] steps whose events are [E]:
    [completedCount] is the number of steps that completed. *)
Definition ClassificationLaw (n : nat) (E : list Event) (r : Results.t)
  : Prop :=
  (Results.status r = success <-> completedInRun E n = n)
  /\ (Results.status r = partial <-> completedInRun E n < n).

(** The aggregation of durations as the specification words it: the
    total is the sum over the steps of the run of the duration each
    recorded, a step that recorded none counting for zero. *)
Definition DurationAggregation (n : nat) (E : list Event) (r : Results.t)
  : Prop :=
  Results.totalDuration r
  = Some (fold_right Z.add 0%Z
            (map (fun k => match durationInRun E k with
                           | Some d => d
                           | None => 0%Z
                           end)
                 (seq 0 n))).


(** Step [i] is never shown running unless step [i-1] was shown completed
    or failed before. *)
Definition SequentialOrder (E : list Event) : Prop :=
  forall i t, shows E t (S i) running ->
              exists t', t' < t /\ (shows E t' i completed \/ shows E t' i failed).

(** The rejection of the empty chain as the specification words it: no
    step is attempted, no step record is made, no success or partial
    outcome is produced, and the refusal goes down the error path of the
    run, that is, the call throws or an outcome with status error is
    published. *)
Definition EmptyChainRejected (before : World) (after : Completion unit * World)
  : Prop :=
  (forall E, trace (snd after) = trace before ++ E ->
             forall k v, ~ attemptedWith E k v)
  /\ executionSteps (ui (snd after)) = []
  /\ (forall r, executionResults (ui (snd after)) = Some r ->
                Results.status r = error)
  /\ ((exists e, fst after = Abrupt e)
      \/ exists r, executionResults (ui (snd after)) = Some r
                   /\ Results.status r = error).

(* ================================================================== *)
(** ** A catalog and oracles to run the executor on *)
(* ================================================================== *)

(** A clock that stands still except while an action runs, which takes
    one second: a step whose server is found reads the clock once when it
    starts and twice in a row when it ends. *)
Definition demoClock (k : nat) : Z := (1000 * Z.of_nat ((k + 2) / 3))%Z.

Definition demoRandom (k : nat) : Q := (1 # 2)%Q.

Definition demoServers : list MCPServer.t :=
  [MCPServer.mk "s1" "slack-connector" "Send messages to Slack";
   MCPServer.mk "s2" "github-integration" "Work with GitHub repositories"].

Definition demoRun (chain : list string) : Completion unit * World :=
  executeChain demoClock demoRandom mockServerExecutions demoServers chain
               freshWorld.

(** The chain s1, gone, s2: the second server is not in the catalog. *)
Definition gapRun : Completion unit * World := demoRun ["s1"; "gone"; "s2"].

(** The chain of the single identifier unknown-id, on an empty catalog. *)
Definition unknownRun : Completion unit * World :=
  executeChain demoClock demoRandom mockServerExecutions [] ["unknown-id"]
               freshWorld.

(** The chain s1, s2: both servers are in the catalog. *)
Definition pairRun : Completion unit * World := demoRun ["s1"; "s2"].

(** The chain gone, s1: the first server is not in the catalog. *)
Definition skipRun : Completion unit * World := demoRun ["gone"; "s1"].

(** A clock that is a second later at every reading. *)
Definition risingClock (k : nat) : Z := (1000 * Z.of_nat k)%Z.

(** The chain s1, s2 on that clock. *)
Definition risingRun : Completion unit * World :=
  executeChain risingClock demoRandom mockServerExecutions demoServers
               ["s1"; "s2"] freshWorld.

(* ================================================================== *)
(** ** What the component and its parent show of a run *)
(* ================================================================== *)

Inductive StepIcon : Type := Spinner | CheckCircle | AlertTriangle | Clock.

(** [getStepIcon(status, isActive)] *)
Definition getStepIcon (status : StepStatus) (isActive : bool) : StepIcon :=
  if isActive && StepStatus_eqb status running then Spinner
  else match status with
       | completed => CheckCircle
       | failed => AlertTriangle
       | running => Spinner
       | pending => Clock
       end.

(** The icon drawn for the step at [index]: [isActive] is
    [currentStepIndex === index]. *)
Definition iconOf (s : ExecutorState) (index : nat) (step : ExecutionStep.t)
  : StepIcon :=
  getStepIcon (ExecutionStep.status step)
              (Z.eqb (currentStepIndex s) (Z.of_nat index)).

Inductive ToastType : Type := ToastSuccess | ToastWarning | ToastInfo | ToastError.

Module Toast.
Record t : Type := mk {
  type : ToastType;
  title : string;
  message : string
}.
End Toast.

(** [handleExecutionComplete] of the parent: the toast it hands to
    [addToast]. *)
Definition handleExecutionComplete (results : list ExecutionStep.t) : Toast.t :=
  let successCount := countCompleted results in
  Toast.mk
    (if Nat.eqb successCount (List.length results)
     then ToastSuccess else ToastWarning)
    "Chain execution completed"
    (showNat successCount ++ "/" ++ showNat (List.length results)
       ++ " steps completed successfully").

(** The world the run of [chain] started in [w] enters its loop in. *)
Definition loopStart (servers : list MCPServer.t) (chain : list string)
    (w : World) : World :=
  mkWorld (mkState true (map (newStep servers) chain) (-1)%Z None)
          (ticks w) (draws w)
          (trace w ++ [EvSetSteps (map (newStep servers) chain)]).

(** The events of the run of [chain] whose loop leaves [E] and the step
    list [fin]. *)
Definition runEvents (servers : list MCPServer.t) (chain : list string)
    (E : list Event) (fin : list ExecutionStep.t) : list Event :=
  EvSetSteps (map (newStep servers) chain)
  :: E ++ [EvComplete fin; EvSetSteps fin].

(** What [executeStep] throws at its head for a step it rejects, [None]
    for a step it goes on with. *)
Definition rejection (servers : list MCPServer.t)
    (step : option ExecutionStep.t) (stepIndex : nat) : option Thrown :=
  match step with
  | None => Some (ErrorObj ("Invalid step at index " ++ showNat stepIndex))
  | Some st =>
      if String.eqb (ExecutionStep.serverId st) "" then
        Some (ErrorObj ("Invalid step at index " ++ showNat stepIndex))
      else
        match findServer servers (ExecutionStep.serverId st) with
        | None =>
            Some (ErrorObj ("Server not found: " ++ ExecutionStep.serverId st))
        | Some _ => None
        end
  end.

(** The indices [executeStep] was called with, in the order of the calls. *)
Definition callIndices (E : list Event) : list nat :=
  flat_map (fun e => match e with EvCall i _ => [i] | _ => [] end) E.

(** The step lists [onExecutionComplete] was called with, in order. *)
Definition completions (E : list Event) : list (list ExecutionStep.t) :=
  flat_map (fun e => match e with EvComplete results => [results] | _ => [] end) E.

(** A clock that never goes back. *)
Definition nondecreasing (clock : nat -> Z) : Prop :=
  forall a b, a <= b -> (clock a <= clock b)%Z.

Definition noPositiveDuration (steps : list ExecutionStep.t) : Prop :=
  forall s d, In s steps -> ExecutionStep.duration s = Some d -> (d <= 0)%Z.

(** The object the branch without action makes up. *)
Definition genericData (server : MCPServer.t) (now : Z) (r : Q) : value :=
  VObj [("server_name", VStr (MCPServer.name server));
        ("execution_time", VNum now);
        ("status", VStr "completed");
        ("operations_performed", VNum (operationsPerformed r))].

(** An action table whose actions all resolve with a result that has a
    [data] to read. *)
Definition neverFails (actions : string -> option Action) : Prop :=
  forall name executeFn input,
    actions name = Some executeFn ->
    exists result data,
      executeFn input = inr result /\ getData result = inr data.

(** An action table whose actions for the names of the catalog's servers
    all resolve with a result that has a [data] to read. *)
Definition neverFailsFor (servers : list MCPServer.t)
    (actions : string -> option Action) : Prop :=
  forall server executeFn input,
    In server servers ->
    actions (MCPServer.name server) = Some executeFn ->
    exists result data,
      executeFn input = inr result /\ getData result = inr data.

(** An identifier [executeStep] rejects: empty, or absent from the
    catalog. *)
Definition entryMissing (servers : list MCPServer.t) (entryId : string) : Prop :=
  entryId = "" \/ findServer servers entryId = None.

(** A step list the turn of step [i] leaves behind: the step is completed
    or failed, the others are as the loop found them. *)
Definition settledBy (currentSteps : list ExecutionStep.t) (i : nat)
    (steps : list ExecutionStep.t) : Prop :=
  agreesOff i steps currentSteps
  /\ (statusAt steps i = Some completed \/ statusAt steps i = Some failed).

(** How a step whose server is found ends, read off the action table. *)
Definition endsAs (actions : string -> option Action) (server : MCPServer.t)
    (i : nat) (ran : list ExecutionStep.t) (p : value) (now : Z) (r : Q)
    (d : Z) (c : Completion value) (fin : list ExecutionStep.t) : Prop :=
  let done data := updateAt i (fun s => ExecutionStep.toCompleted s data d) ran in
  let broke e :=
    updateAt i
      (fun s => ExecutionStep.toFailed s (messageOr "Unknown error" e) d) ran in
  match actions (MCPServer.name server) with
  | None =>
      c = Normal (genericData server now r)
      /\ fin = done (genericData server now r)
  | Some executeFn =>
      match executeFn p with
      | inl e => c = Abrupt e /\ fin = broke e
      | inr result =>
          match getData result with
          | inl e => c = Abrupt e /\ fin = broke e
          | inr data => c = Normal data /\ fin = done data
          end
      end
  end.

(** The world [w] with the trace [t] in place of its own. *)
Definition reTrace (w : World) (t : list Event) : World :=
  mkWorld (ui w) (ticks w) (draws w) t.

(** A computation that never reads the trace: it appends the same events,
    and does the same otherwise, whatever the trace holds. *)
Definition appendsOnly {A : Type} (m : Eff A) : Prop :=
  forall w, exists E,
    trace (snd (m w)) = trace w ++ E
    /\ forall t, m (reTrace w t) = (fst (m w), reTrace (snd (m w)) (t ++ E)).

(** [resetExecution(); executeChain()] *)
Definition resetThenRun (clock : nat -> Z) (random : nat -> Q)
    (actions : string -> option Action) (servers : list MCPServer.t)
    (chain : list string) : Eff unit :=
  resetExecution ;;
  executeChain clock random actions servers chain.

(* ================================================================== *)
(** ** Strings and lists *)
(* ================================================================== *)

Lemma list_ascii_of_append (a b : string) :
  list_ascii_of_string (a ++ b) =
  (list_ascii_of_string a ++ list_ascii_of_string b)%list.
Proof.
  induction a as [|c a IH]; simpl; [reflexivity | now rewrite IH].
Qed.

Lemma append_inv_tail (a b s : string) :
  (a ++ s)%string = (b ++ s)%string -> a = b.
Proof.
  intros H.
  apply (f_equal list_ascii_of_string) in H.
  rewrite !list_ascii_of_append in H.
  apply app_inv_tail in H.
  apply (f_equal string_of_list_ascii) in H.
  now rewrite !string_of_list_ascii_of_string in H.
Qed.

Lemma to_uint_nonnil (n : nat) : Nat.to_uint n <> Decimal.Nil.
Proof.
  intros H.
  assert (E : n = 0).
  { rewrite <- (Unsigned.of_to n). now rewrite H. }
  subst n. discriminate H.
Qed.

Lemma showNat_inj (m n : nat) : showNat m = showNat n -> m = n.
Proof.
  unfold showNat. intros H.
  apply (f_equal NilZero.uint_of_string) in H.
  rewrite !NilZero.usu in H by apply to_uint_nonnil.
  injection H as H. now apply Unsigned.to_uint_inj.
Qed.

Lemma stepFailedMsg_inj (m n : nat) : stepFailedMsg m = stepFailedMsg n -> m = n.
Proof.
  unfold stepFailedMsg. intros H.
  simpl in H. injection H as H.
  apply append_inv_tail in H. now apply showNat_inj.
Qed.

Lemma mapiFrom_length {A B : Type} (f : nat -> A -> B) (xs : list A) :
  forall start, List.length (mapiFrom f start xs) = List.length xs.
Proof.
  induction xs as [|x xs IH]; intros start; simpl; [reflexivity | now rewrite IH].
Qed.

Lemma updateAt_length i f steps :
  List.length (updateAt i f steps) = List.length steps.
Proof. apply mapiFrom_length. Qed.

Lemma mapiFrom_nth_error {A B : Type} (f : nat -> A -> B) (xs : list A) :
  forall start k,
    nth_error (mapiFrom f start xs) k = option_map (f (start + k)) (nth_error xs k).
Proof.
  induction xs as [|x xs IH]; intros start k; simpl.
  - now destruct k.
  - destruct k as [|k]; simpl.
    + now rewrite Nat.add_0_r.
    + rewrite IH. now rewrite Nat.add_succ_r.
Qed.

Lemma updateAt_nth_error i f steps k :
  nth_error (updateAt i f steps) k =
  option_map (fun s => if Nat.eqb k i then f s else s) (nth_error steps k).
Proof. unfold updateAt, mapi. now rewrite mapiFrom_nth_error. Qed.

(** A traversal whose callback acts at one index runs the action once,
    on the element at that index, and rebuilds the list around it. *)
Lemma mapiFrom_beyond {A : Type} (f : A -> A) (k : nat) (xs : list A) :
  forall start, k < start ->
    mapiFrom (fun i s => if Nat.eqb i k then f s else s) start xs = xs.
Proof.
  induction xs as [|x xs IH]; intros start Hk; cbn; [reflexivity|].
  destruct (Nat.eqb_spec start k); [lia|]. rewrite IH by lia. reflexivity.
Qed.

Lemma mapiFromM_beyond {A : Type} (g : A -> Eff A) (k : nat) (xs : list A) :
  forall start w, k < start ->
    mapiFromM (atIndex k g) start xs w = (Normal xs, w).
Proof.
  induction xs as [|x xs IH]; intros start w Hk; cbn; [reflexivity|].
  unfold bind, atIndex at 1.
  destruct (Nat.eqb_spec start k); [lia|].
  unfold ret at 1. rewrite IH by lia. reflexivity.
Qed.

Lemma mapiFromM_hit {A : Type} (f : A -> A) (g : A -> Eff A) (k : nat)
    (xs : list A) :
  forall start w x w',
    start <= k -> nth_error xs (k - start) = Some x ->
    g x w = (Normal (f x), w') ->
    mapiFromM (atIndex k g) start xs w
    = (Normal (mapiFrom (fun i s => if Nat.eqb i k then f s else s) start xs),
       w').
Proof.
  induction xs as [|y xs IH]; intros start w x w' Hk Hx Hg.
  - destruct (k - start); discriminate Hx.
  - cbn. unfold bind, atIndex at 1.
    destruct (Nat.eqb_spec start k) as [->|Hne].
    + rewrite Nat.sub_diag in Hx. injection Hx as ->.
      rewrite Hg, mapiFromM_beyond by lia.
      rewrite mapiFrom_beyond by lia. reflexivity.
    + unfold ret at 1.
      replace (k - start) with (S (k - S start)) in Hx by lia. cbn in Hx.
      rewrite (IH (S start) w x w') by (assumption || lia). reflexivity.
Qed.

Lemma mapiFromM_throw {A : Type} (g : A -> Eff A) (k : nat) (xs : list A) :
  forall start w x e w',
    start <= k -> nth_error xs (k - start) = Some x ->
    g x w = (Abrupt e, w') ->
    mapiFromM (atIndex k g) start xs w = (Abrupt e, w').
Proof.
  induction xs as [|y xs IH]; intros start w x e w' Hk Hx Hg.
  - destruct (k - start); discriminate Hx.
  - cbn. unfold bind, atIndex at 1.
    destruct (Nat.eqb_spec start k) as [->|Hne].
    + rewrite Nat.sub_diag in Hx. injection Hx as ->.
      rewrite Hg. reflexivity.
    + unfold ret at 1.
      replace (k - start) with (S (k - S start)) in Hx by lia. cbn in Hx.
      rewrite (IH (S start) w x e w') by (assumption || lia). reflexivity.
Qed.

Lemma mapiM_hit {A : Type} (f : A -> A) (g : A -> Eff A) (k : nat)
    (xs : list A) (w : World) (x : A) (w' : World) :
  nth_error xs k = Some x ->
  g x w = (Normal (f x), w') ->
  mapiM (atIndex k g) xs w
  = (Normal (mapi (fun i s => if Nat.eqb i k then f s else s) xs), w').
Proof.
  intros Hx Hg. unfold mapiM, mapi.
  apply (mapiFromM_hit f g k xs 0 w x w'); [lia | | exact Hg].
  now rewrite Nat.sub_0_r.
Qed.

Lemma mapiM_throw {A : Type} (g : A -> Eff A) (k : nat) (xs : list A)
    (w : World) (x : A) (e : Thrown) (w' : World) :
  nth_error xs k = Some x ->
  g x w = (Abrupt e, w') ->
  mapiM (atIndex k g) xs w = (Abrupt e, w').
Proof.
  intros Hx Hg. unfold mapiM.
  apply (mapiFromM_throw g k xs 0 w x e w'); [lia | | exact Hg].
  now rewrite Nat.sub_0_r.
Qed.

(* ================================================================== *)
(** ** One step *)
(* ================================================================== *)

Section StepFacts.

Variable clock : nat -> Z.
Variable random : nat -> Q.
Variable actions : string -> option Action.
Variable servers : list MCPServer.t.

(** Reading the clock twice touches nothing but the clock. *)
Lemma elapsed_run (step : ExecutionStep.t) (w : World) :
  exists d k,
    elapsed clock step w = (Normal d, mkWorld (ui w) (ticks w + k) (draws w) (trace w)).
Proof.
  unfold elapsed, bind, dateNow, ret.
  destruct (ExecutionStep.startTime step) as [t|]; simpl.
  - destruct (Z.eqb t 0); simpl.
    + eexists; exists 2; do 2 f_equal; lia.
    + eexists; exists 1; do 2 f_equal; lia.
  - eexists; exists 2; do 2 f_equal; lia.
Qed.

Lemma unresolved_or_resolved step :
  unresolved servers step \/ exists server, resolved_by servers step server.
Proof.
  destruct step as [st|]; [|now left].
  destruct (String.eqb_spec (ExecutionStep.serverId st) "") as [E|E].
  - left. now left.
  - destruct (findServer servers (ExecutionStep.serverId st)) as [srv|] eqn:F.
    + right. exists srv, st. auto.
    + left. simpl. now right.
Qed.

Lemma executeStep_unresolved step i steps p w :
  unresolved servers step ->
  exists e,
    executeStep clock random actions servers step i steps p w =
    (Abrupt e, mkWorld (ui w) (ticks w) (draws w) (trace w ++ [EvCall i p])).
Proof.
  unfold executeStep, bind, emit, throw. simpl.
  destruct step as [st|]; simpl; [|intros _; eexists; reflexivity].
  intros [E|E].
  - rewrite E. simpl. eexists; reflexivity.
  - destruct (String.eqb _ ""); [eexists; reflexivity|].
    rewrite E. eexists; reflexivity.
Qed.

Lemma executeStep_resolved server i steps p w :
  resolved_by servers (nth_error steps i) server ->
  exists c w' now fin,
    executeStep clock random actions servers (nth_error steps i) i steps p w
    = (c, w')
    /\ trace w' =
       trace w ++ [EvCall i p;
                   EvSetSteps
                     (updateAt i (fun s => ExecutionStep.toRunning s now) steps);
                   EvSetSteps fin]
    /\ ui w' = mkState (isExecuting (ui w)) fin (currentStepIndex (ui w))
                       (executionResults (ui w))
    /\ ranAs i steps c now fin.
Proof.
  intros (st & Hnth & Hid & Hsrv).
  rewrite Hnth. unfold executeStep.
  apply String.eqb_neq in Hid.
  unfold bind at 1. unfold emit at 1. cbv iota beta.
  rewrite Hid, Hsrv.
  unfold bind at 1.
  match goal with
  | |- context [mapiM (atIndex i ?g) steps ?w0] =>
      rewrite (mapiM_hit
                 (fun s => ExecutionStep.toRunning s (clock (ticks w0)))
                 g i steps w0 st
                 (mkWorld (ui w0) (S (ticks w0)) (draws w0) (trace w0))
                 Hnth eq_refl)
  end.
  cbn [ui ticks draws trace].
  fold (updateAt i (fun s => ExecutionStep.toRunning s (clock (ticks w))) steps).
  set (ran := updateAt i
                (fun s => ExecutionStep.toRunning s (clock (ticks w))) steps).
  assert (Hran : nth_error ran i
                 = Some (ExecutionStep.toRunning st (clock (ticks w)))).
  { unfold ran. rewrite updateAt_nth_error, Hnth. cbn.
    now rewrite Nat.eqb_refl. }
  cbv beta iota delta
    [bind tryCatch setExecutionSteps modifyUi emit genericExecution
     mathRandom dateNow sleep ret throw].
  cbn [ui ticks draws trace isExecuting executionSteps currentStepIndex
       executionResults].
  destruct (actions (MCPServer.name server)) as [executeFn|].
  - destruct (executeFn p) as [e|result]; cbn [liftSum].
    + cbv beta iota delta [throw].
      match goal with |- context [elapsed clock ?s ?w0] =>
        destruct (elapsed_run s w0) as (d & k & ->) end.
      cbn [ui ticks draws trace isExecuting executionSteps currentStepIndex
           executionResults].
      do 4 eexists. split; [reflexivity|].
      cbn [ui ticks draws trace]. rewrite <- !app_assoc.
      split; [reflexivity|]. split; [reflexivity|].
      right. do 2 eexists. split; reflexivity.
    + cbv beta iota delta [ret].
      match goal with |- context [elapsed clock ?s ?w0] =>
        destruct (elapsed_run s w0) as (d & k & ->) end.
      cbn [ui ticks draws trace isExecuting executionSteps currentStepIndex
           executionResults].
      destruct (getData result) as [e|data] eqn:G.
      * match goal with
        | |- context [mapiM (atIndex i ?g) ran ?w0] =>
            rewrite (mapiM_throw g i ran w0 _ e w0 Hran)
              by reflexivity
        end.
        match goal with |- context [elapsed clock ?s ?w0] =>
          destruct (elapsed_run s w0) as (d' & k' & ->) end.
        cbn [ui ticks draws trace isExecuting executionSteps
             currentStepIndex executionResults].
        do 4 eexists. split; [reflexivity|].
        cbn [ui ticks draws trace]. rewrite <- !app_assoc.
        split; [reflexivity|]. split; [reflexivity|].
        right. do 2 eexists. split; reflexivity.
      * match goal with
        | |- context [mapiM (atIndex i ?g) ran ?w0] =>
            rewrite (mapiM_hit
                       (fun s => ExecutionStep.toCompleted s data d)
                       g i ran w0 _ w0 Hran)
              by reflexivity
        end.
        cbn [liftSum]. cbv beta iota delta [ret].
        cbn [ui ticks draws trace isExecuting executionSteps
             currentStepIndex executionResults].
        do 4 eexists. split; [reflexivity|].
        cbn [ui ticks draws trace]. rewrite <- !app_assoc.
        split; [reflexivity|]. split; [reflexivity|].
        left. do 2 eexists. split; reflexivity.
  - match goal with |- context [elapsed clock ?s ?w0] =>
      destruct (elapsed_run s w0) as (d & k & ->) end.
    cbn [ui ticks draws trace isExecuting executionSteps currentStepIndex
         executionResults].
    do 4 eexists. split; [reflexivity|].
    cbn [ui ticks draws trace]. rewrite <- !app_assoc.
    split; [reflexivity|]. split; [reflexivity|].
    left. do 2 eexists. split; reflexivity.
Qed.

End StepFacts.

(* ================================================================== *)
(** ** The run loop *)
(* ================================================================== *)

Section LoopFacts.

Variable clock : nat -> Z.
Variable random : nat -> Q.
Variable actions : string -> option Action.
Variable servers : list MCPServer.t.
Variable currentSteps : list ExecutionStep.t.

(** The first turn of a loop, and the loop that remains. *)
Lemma forLoop_cons i rest p w :
  exists p1 w1 E1 o,
    forLoop clock random actions servers currentSteps (i :: rest) p w =
    forLoop clock random actions servers currentSteps rest p1 w1
    /\ Iteration servers currentSteps i p p1 E1 o
    /\ trace w1 = trace w ++ E1
    /\ ui w1 = mkState (isExecuting (ui w)) (stepsAfter o (ui w))
                       (Z.of_nat i) (executionResults (ui w)).
Proof.
  cbn [forLoop].
  unfold bind at 1. unfold setCurrentStepIndex at 1, modifyUi at 1.
  cbv iota beta.
  unfold bind at 1, tryCatch at 1, bind at 1.
  destruct (unresolved_or_resolved servers (nth_error currentSteps i))
    as [U|[server R]].
  - match goal with
    | |- context [executeStep _ _ _ _ ?s i currentSteps p ?w0] =>
        destruct (executeStep_unresolved clock random actions servers s i
                    currentSteps p w0 U) as (e & ->)
    end.
    unfold bind, consoleError, emit, ret. cbn.
    exists p. eexists. do 2 eexists.
    split; [reflexivity|]. split; [apply (IterUnresolved servers currentSteps i p e U)|].
    cbn. rewrite <- app_assoc. split; reflexivity.
  - match goal with
    | |- context [executeStep _ _ _ _ ?s i currentSteps p ?w0] =>
        destruct (executeStep_resolved clock random actions servers server
                    i currentSteps p w0 R)
          as (c & w' & now & fin & -> & T & Ui & Ran)
    end.
    destruct Ran as [(data & d & -> & ->)|(e & d & -> & ->)].
    + unfold bind, sleep, ret. cbn.
      exists data, w'. do 2 eexists.
      split; [reflexivity|].
      split; [apply (IterCompleted servers currentSteps i p server now data d R)|].
      split; [exact T|]. exact Ui.
    + unfold bind, consoleError, emit, ret. cbn.
      exists p. eexists. do 2 eexists.
      split; [reflexivity|].
      split; [apply (IterFailed servers currentSteps i p server now e d R)|].
      cbn. rewrite T, Ui. rewrite <- app_assoc. split; reflexivity.
Qed.

(** The loop always runs to its end: whatever a step throws is caught
    by the handler of its own turn. *)
Lemma forLoop_runs indices :
  forall p w,
  exists p' w' E,
    forLoop clock random actions servers currentSteps indices p w
    = (Normal p', w')
    /\ LoopRun servers currentSteps indices p E p'
    /\ trace w' = trace w ++ E
    /\ isExecuting (ui w') = isExecuting (ui w)
    /\ executionResults (ui w') = executionResults (ui w)
    /\ (List.length (executionSteps (ui w)) = List.length currentSteps ->
        List.length (executionSteps (ui w')) = List.length currentSteps)
    /\ (executionSteps (ui w') = executionSteps (ui w)
        \/ In (EvSetSteps (executionSteps (ui w'))) E).
Proof.
  induction indices as [|i rest IH]; intros p w.
  - exists p, w, []. cbn. rewrite app_nil_r.
    repeat split; auto. constructor.
  - destruct (forLoop_cons i rest p w) as (p1 & w1 & E1 & o & -> & It & T1 & U1).
    destruct (IH p1 w1) as (p' & w' & E2 & -> & Run & T2 & X & R & L & Last).
    exists p', w', (E1 ++ E2).
    split; [reflexivity|].
    split; [econstructor; eassumption|].
    split; [rewrite T2, T1; now rewrite app_assoc|].
    rewrite X, R, U1. cbn.
    split; [reflexivity|]. split; [reflexivity|]. split.
    + intros Len. apply L. rewrite U1. cbn.
      destruct It; cbn; auto; subst ran fin; now rewrite !updateAt_length.
    + destruct Last as [Same|Seen].
      * rewrite Same, U1. cbn.
        destruct It; cbn; [now left | right | right]; subst ran fin;
          repeat first [left; reflexivity | right].
      * right. apply in_or_app. now right.
Qed.

End LoopFacts.

(* ================================================================== *)
(** ** What the trace of a loop says *)
(* ================================================================== *)

Lemma allSnapshots_spec ok E :
  allSnapshots ok E = true ->
  forall steps, In (EvSetSteps steps) E -> ok steps = true.
Proof.
  unfold allSnapshots. rewrite forallb_forall.
  intros H steps Hin. exact (H _ Hin).
Qed.

Lemma StepStatus_eqb_eq a b : StepStatus_eqb a b = true <-> a = b.
Proof. destruct a, b; cbn; split; congruence. Qed.

Lemma statusIs_spec steps i s : statusIs steps i s = true <-> statusAt steps i = Some s.
Proof.
  unfold statusIs. destruct (statusAt steps i) as [s'|].
  - rewrite StepStatus_eqb_eq. split; congruence.
  - split; discriminate.
Qed.

Lemma showsb_spec E t i s : showsb E t i s = true <-> shows E t i s.
Proof.
  unfold showsb, shows. split.
  - destruct (nth_error E t) as [[| steps | |]|]; try discriminate.
    intros H. exists steps. split; [reflexivity|]. now apply statusIs_spec.
  - intros (steps & -> & H). now apply statusIs_spec.
Qed.

Lemma never_shown ok E i s :
  allSnapshots ok E = true ->
  (forall steps, ok steps = true -> statusIs steps i s = false) ->
  forall t, ~ shows E t i s.
Proof.
  intros All Ok t (steps & Ht & Hs).
  apply nth_error_In in Ht.
  apply (allSnapshots_spec _ _ All) in Ht.
  apply statusIs_spec in Hs. rewrite (Ok _ Ht) in Hs. discriminate Hs.
Qed.

Lemma shows_app_l E1 E2 t i s :
  t < List.length E1 -> shows E1 t i s -> shows (E1 ++ E2) t i s.
Proof.
  intros Ht (steps & Hn & Hs). exists steps.
  now rewrite nth_error_app1.
Qed.

Lemma shows_app_r E1 E2 t i s :
  shows E2 t i s -> shows (E1 ++ E2) (List.length E1 + t) i s.
Proof.
  intros (steps & Hn & Hs). exists steps.
  rewrite nth_error_app2 by lia.
  now replace (List.length E1 + t - List.length E1) with t by lia.
Qed.

Lemma shows_app_inv E1 E2 t i s :
  shows (E1 ++ E2) t i s ->
  (t < List.length E1 /\ shows E1 t i s)
  \/ (List.length E1 <= t /\ shows E2 (t - List.length E1) i s).
Proof.
  intros (steps & Hn & Hs).
  destruct (Nat.lt_ge_cases t (List.length E1)) as [Lt|Ge].
  - left. split; [exact Lt|]. exists steps. now rewrite nth_error_app1 in Hn.
  - right. split; [exact Ge|]. exists steps. now rewrite nth_error_app2 in Hn.
Qed.

Lemma shows_in E t i s :
  shows E t i s ->
  t < List.length E
  /\ exists steps, In (EvSetSteps steps) E /\ statusAt steps i = Some s.
Proof.
  intros (steps & Hn & Hs). split.
  - apply nth_error_Some. congruence.
  - exists steps. split; [eapply nth_error_In; exact Hn | exact Hs].
Qed.

Lemma in_shows E steps i s :
  In (EvSetSteps steps) E -> statusAt steps i = Some s ->
  exists t, t < List.length E /\ shows E t i s.
Proof.
  intros Hin Hs. apply In_nth_error in Hin as [t Ht].
  exists t. split.
  - apply nth_error_Some. congruence.
  - exists steps. auto.
Qed.

Lemma updateAt_agreesOff i f base : agreesOff i (updateAt i f base) base.
Proof.
  intros k Hk. rewrite updateAt_nth_error.
  destruct (Nat.eqb_spec k i); [contradiction|].
  now destruct (nth_error base k).
Qed.

Lemma agreesOff_trans i a b c :
  agreesOff i a b -> agreesOff i b c -> agreesOff i a c.
Proof. intros H1 H2 k Hk. now rewrite H1, H2. Qed.

Lemma statusAt_updateAt i f base st :
  nth_error base i = Some st ->
  statusAt (updateAt i f base) i = Some (ExecutionStep.status (f st)).
Proof.
  intros H. unfold statusAt.
  now rewrite updateAt_nth_error, H, Nat.eqb_refl.
Qed.

Lemma console_msg_inj l m a l' m' a' :
  EvConsole l m a = EvConsole l' m' a' -> m = m'.
Proof. intros H. now injection H. Qed.

Section TraceFacts.

Variable servers : list MCPServer.t.
Variable currentSteps : list ExecutionStep.t.


Lemma iteration_head i p p1 E o :
  Iteration servers currentSteps i p p1 E o -> attemptedWith E i p.
Proof. intros It; destruct It; left; reflexivity. Qed.


Lemma stepFailed_app E1 E2 k :
  stepFailed (E1 ++ E2) k <-> stepFailed E1 k \/ stepFailed E2 k.
Proof.
  unfold stepFailed; split.
  - intros [e H]. apply in_app_or in H as [H|H]; [left|right]; eauto.
  - intros [[e H]|[e H]]; exists e; apply in_or_app; auto.
Qed.



Lemma loop_head i rest p E p' :
  LoopRun servers currentSteps (i :: rest) p E p' -> attemptedWith E i p.
Proof.
  inversion 1; subst. apply in_or_app. left.
  eapply iteration_head; eassumption.
Qed.




(** The loop logs failures of steps only. *)
Lemma loop_logs_steps_only indices p E p' e :
  LoopRun servers currentSteps indices p E p' ->
  ~ In (EvConsole Err "Chain execution failed:" (Some e)) E.
Proof.
  induction 1 as [|i rest p p1 p2 E1 E2 o It _ IH]; [intros []|].
  intros H. apply in_app_or in H as [H|H]; [|auto].
  destruct It; cbn in H;
    repeat (destruct H as [H|H]; try discriminate H; try contradiction);
    apply console_msg_inj in H; discriminate H.
Qed.

Lemma iteration_snapshot i p p1 E o steps :
  Iteration servers currentSteps i p p1 E o ->
  In (EvSetSteps steps) E -> publishedBy servers currentSteps i steps.
Proof.
  intros It H. unfold publishedBy.
  destruct It as [e U | server now data d R ran fin | server now e d R ran fin];
    cbn in H;
    repeat (destruct H as [H|H]; try discriminate H; try contradiction);
    injection H as <-;
    (split; [now exists server|]);
    destruct R as (st & Hst & _);
    assert (Hran : nth_error ran i = Some (ExecutionStep.toRunning st now))
      by (unfold ran; now rewrite updateAt_nth_error, Hst, Nat.eqb_refl);
    subst fin;
    first
      [ split; [apply updateAt_agreesOff|];
        left; unfold ran; now rewrite (statusAt_updateAt _ _ _ _ Hst)
      | split;
        [eapply agreesOff_trans; [apply updateAt_agreesOff|];
         apply updateAt_agreesOff|];
        right; rewrite (statusAt_updateAt _ _ _ _ Hran); cbn; auto ].
Qed.

Lemma loop_snapshot indices p E p' steps :
  LoopRun servers currentSteps indices p E p' ->
  In (EvSetSteps steps) E ->
  exists i, In i indices /\ publishedBy servers currentSteps i steps.
Proof.
  induction 1 as [|i rest p p1 p2 E1 E2 o It _ IH]; [contradiction|].
  intros H. apply in_app_or in H as [H|H].
  - exists i. split; [now left|]. eapply iteration_snapshot; eassumption.
  - destruct (IH H) as (j & Hj & P). exists j. split; [now right | exact P].
Qed.

(** From here on the loop starts from steps that are all pending, as
    [initializeExecution] makes them. *)
Hypothesis startPending :
  forall k s, statusAt currentSteps k = Some s -> s = pending.

Lemma published_own_index i steps j s :
  publishedBy servers currentSteps i steps -> statusAt steps j = Some s -> s <> pending -> j = i.
Proof.
  intros (_ & Agree & _) Hs Hne.
  destruct (Nat.eq_dec j i) as [E|E]; [exact E|].
  unfold statusAt in Hs. rewrite (Agree j E) in Hs.
  elim Hne. eapply startPending. exact Hs.
Qed.

Lemma loop_shows_own_index indices p E p' t j s :
  LoopRun servers currentSteps indices p E p' ->
  shows E t j s -> s <> pending -> In j indices.
Proof.
  intros Run Sh Hne.
  destruct (shows_in _ _ _ _ Sh) as (_ & steps & Hin & Hs).
  destruct (loop_snapshot _ _ _ _ steps Run Hin) as (i & Hi & P).
  now rewrite (published_own_index i steps j s P Hs Hne).
Qed.

Lemma resolved_not_unresolved step server :
  resolved_by servers step server -> ~ unresolved servers step.
Proof.
  intros (st & -> & Hid & Hsrv) [U|U]; [contradiction | congruence].
Qed.

(** The turn of a step whose server is found shows the step in a final
    status, in its third event. *)
Lemma iteration_terminal i p p1 E o server :
  Iteration servers currentSteps i p p1 E o ->
  resolved_by servers (nth_error currentSteps i) server ->
  2 < List.length E /\ (shows E 2 i completed \/ shows E 2 i failed).
Proof.
  intros It R.
  destruct It as [e U | srv now data d R' ran fin | srv now e d R' ran fin].
  - elim (resolved_not_unresolved _ _ R U).
  - destruct R' as (st & Hst & _).
    split; [cbn; lia|]. left. exists fin. split; [reflexivity|].
    unfold fin. erewrite statusAt_updateAt; [reflexivity|].
    unfold ran. now rewrite updateAt_nth_error, Hst, Nat.eqb_refl.
  - destruct R' as (st & Hst & _).
    split; [cbn; lia|]. right. exists fin. split; [reflexivity|].
    unfold fin. erewrite statusAt_updateAt; [reflexivity|].
    unfold ran. now rewrite updateAt_nth_error, Hst, Nat.eqb_refl.
Qed.

(** In a loop over steps whose servers are all found, a step is shown
    running only after the step before it was shown completed or failed. *)
Lemma loop_order m :
  forall a p E p',
    LoopRun servers currentSteps (seq a m) p E p' ->
    (forall j, a <= j < a + m ->
               exists server, resolved_by servers (nth_error currentSteps j) server) ->
    forall i t, shows E t (S i) running -> a <= i ->
                exists t', t' < t /\ (shows E t' i completed \/ shows E t' i failed).
Proof.
  induction m as [|m IH]; intros a p E p' Run Res i t Sh Hi.
  - inversion Run; subst. destruct Sh as (steps & Hn & _).
    destruct t; discriminate Hn.
  - cbn [seq] in Run.
    inversion Run as [|j rest q p1 p2 E1 E2 o It Run' Ej Eq EE Ep]; subst.
    apply shows_app_inv in Sh as [[Lt Sh]|[Ge Sh]].
    + exfalso.
      destruct (shows_in _ _ _ _ Sh) as (_ & steps & Hin & Hs).
      pose proof (iteration_snapshot _ _ _ _ _ steps It Hin) as P.
      assert (S i = a) by (apply (published_own_index a steps (S i) running P Hs);
                           discriminate).
      lia.
    + assert (In (S i) (seq (S a) m))
        by (apply (loop_shows_own_index _ _ _ _ _ _ _ Run' Sh); discriminate).
      apply in_seq in H.
      destruct (Nat.eq_dec i a) as [->|Hne].
      * destruct (Res a) as [server R]; [lia|].
        destruct (iteration_terminal _ _ _ _ _ server It R) as [Len Term].
        exists 2. split; [lia|].
        destruct Term as [Term|Term]; [left|right];
          apply shows_app_l; assumption.
      * destruct (IH (S a) p1 E2 p' Run') with (i := i) (t := t - List.length E1)
          as (t' & Lt' & Term); [intros j Hj; apply Res; lia | exact Sh | lia |].
        exists (List.length E1 + t'). split; [lia|].
        destruct Term as [Term|Term]; [left|right];
          apply shows_app_r; assumption.
Qed.

End TraceFacts.

(* ================================================================== *)
(** ** A whole run *)
(* ================================================================== *)

Section RunFacts.

Variable clock : nat -> Z.
Variable random : nat -> Q.
Variable actions : string -> option Action.
Variable servers : list MCPServer.t.
Variable orchestrationServers : list string.

(** The body of the outer [try] never throws, and this is what it does. *)
Lemma chainBody_runs w :
  let init := map (newStep servers) orchestrationServers in
  exists w' E p' fin,
    chainBody clock random actions servers orchestrationServers w
    = (Normal tt, w')
    /\ LoopRun servers init (seq 0 (List.length orchestrationServers)) VNull E p'
    /\ trace w' =
       trace w ++ EvSetSteps init :: E ++ [EvComplete fin; EvSetSteps fin]
    /\ ui w' = mkState (isExecuting (ui w)) fin (currentStepIndex (ui w'))
                       (Some (outcomeOf orchestrationServers fin))
    /\ List.length fin = List.length orchestrationServers
    /\ (fin = init \/ In (EvSetSteps fin) E).
Proof.
  intros init.
  unfold chainBody, initializeExecution. fold init.
  cbv beta iota delta
    [bind setExecutionSteps setCurrentStepIndex setExecutionResults modifyUi
     emit ret sleep].
  cbn [ui ticks draws trace isExecuting executionSteps currentStepIndex
       executionResults].
  match goal with
  | |- context [forLoop _ _ _ _ init ?ix VNull ?w0] =>
      destruct (forLoop_runs clock random actions servers init ix VNull w0)
        as (p' & w1 & E & -> & Run & T & X & R & L & Last)
  end.
  cbn in T, X, R, L.
  specialize (L eq_refl). unfold init in L. rewrite length_map in L.
  exists (mkWorld
            (mkState (isExecuting (ui w)) (executionSteps (ui w1))
               (currentStepIndex (ui w1))
               (Some (outcomeOf orchestrationServers (executionSteps (ui w1)))))
            (ticks w1) (draws w1)
            (trace w1 ++ [EvComplete (executionSteps (ui w1));
                          EvSetSteps (executionSteps (ui w1))])).
  exists E, p', (executionSteps (ui w1)).
  split.
  - unfold publishOutcome, bind, getUi, setExecutionResults,
      onExecutionComplete, setExecutionSteps, modifyUi, emit, outcomeOf.
    cbn. rewrite <- app_assoc, X. reflexivity.
  - split; [exact Run|]. cbn.
    split; [rewrite T, <- !app_assoc; reflexivity|].
    split; [reflexivity|]. split; [exact L | exact Last].
Qed.

(** A run on a chain that is not empty. *)
Lemma executeChain_runs w :
  orchestrationServers <> [] ->
  let init := map (newStep servers) orchestrationServers in
  exists w' E p' fin,
    executeChain clock random actions servers orchestrationServers w
    = (Normal tt, w')
    /\ LoopRun servers init (seq 0 (List.length orchestrationServers)) VNull E p'
    /\ trace w' =
       trace w ++ EvSetSteps init :: E ++ [EvComplete fin; EvSetSteps fin]
    /\ ui w' = mkState false fin (-1)%Z (Some (outcomeOf orchestrationServers fin))
    /\ List.length fin = List.length orchestrationServers
    /\ (fin = init \/ In (EvSetSteps fin) E).
Proof.
  intros NE init.
  unfold executeChain.
  assert (Nat.eqb (List.length orchestrationServers) 0 = false) as ->.
  { destruct orchestrationServers; [contradiction | reflexivity]. }
  unfold bind at 1, getUi at 1. cbv iota beta.
  unfold bind at 1, setIsExecuting at 1, modifyUi at 1. cbv iota beta.
  unfold tryFinally, tryCatch.
  match goal with
  | |- context [chainBody _ _ _ _ _ ?w0] =>
      destruct (chainBody_runs w0)
        as (w1 & E & p' & fin & -> & Run & T & U & L & Last)
  end.
  cbn in T, U.
  exists (mkWorld (mkState false fin (-1)%Z (Some (outcomeOf orchestrationServers fin)))
                  (ticks w1) (draws w1) (trace w1)).
  exists E, p', fin.
  split.
  - unfold bind, setIsExecuting, setCurrentStepIndex, modifyUi. cbn.
    rewrite U. reflexivity.
  - cbn. repeat split; assumption.
Qed.

End RunFacts.

(* ================================================================== *)
(** ** Tactics for concrete runs *)
(* ================================================================== *)

(** A run on concrete data is evaluated in the goal, by the virtual
    machine. *)
Ltac in_run := vm_compute; repeat first [left; reflexivity | right].
Ltac not_in_list H :=
  cbn in H; repeat (destruct H as [H|H]; [discriminate H|]); contradiction.

(* ================================================================== *)
(** ** Continuation after a failed step *)
(* ================================================================== *)


Lemma gapRun_third_input :
  attemptedWith (trace (snd gapRun)) 2
    (VObj [("channels", VArr [VStr "#general"; VStr "#dev"; VStr "#random"]);
           ("messages_sent", VNum 3); ("users_notified", VNum 12)]).
Proof. in_run. Qed.




(* ================================================================== *)
(** ** Steps whose server is missing *)
(* ================================================================== *)

Lemma onePendingStep_spec steps :
  onePendingStep steps = true ->
  statuses steps = [pending] /\ map ExecutionStep.error steps = [None].
Proof.
  destruct steps as [|s [|s' rest]]; try discriminate.
  cbn. intros H. apply andb_prop in H as [Hs He].
  destruct (ExecutionStep.status s); try discriminate Hs.
  destruct (ExecutionStep.error s); try discriminate He.
  split; reflexivity.
Qed.

(** C2, evaluated where it fails.  The chain is the single identifier
    unknown-id and the catalog is empty.  The specification has the step
    end Failed with a "server not found" error recorded on it.  In the
    code the error is thrown before the step is touched: the run loop
    logs the failure and goes on, the run ends normally with a partial
    outcome of 0 out of 1, but no published step list ever shows the step
    as anything but pending, and no error is stored on it. *)
Theorem missing_entry_left_pending :
  fst unknownRun = Normal tt
  /\ In (EvConsole Err (stepFailedMsg 0)
                   (Some (ErrorObj "Server not found: unknown-id")))
        (trace (snd unknownRun))
  /\ executionSteps (ui (snd unknownRun)) =
     [ExecutionStep.mk "step-unknown-id" "unknown-id" "Unknown Server" pending
                       None None None None None]
  /\ (forall steps, In (EvSetSteps steps) (trace (snd unknownRun)) ->
                    statuses steps = [pending]
                    /\ map ExecutionStep.error steps = [None])
  /\ executionResults (ui (snd unknownRun)) =
     Some (Results.mk partial None 1 0 (Some 0%Z)).
Proof.
  split; [vm_compute; reflexivity|]. split; [in_run|].
  split; [vm_compute; reflexivity|]. split; [|vm_compute; reflexivity].
  intros steps H. apply onePendingStep_spec.
  revert steps H. apply allSnapshots_spec. vm_compute. reflexivity.
Qed.

(** X15.  In every chain, catalog and action table, a step whose
    identifier is empty or absent from the catalog keeps, in every step
    list published during the run and in the final one, the record it was
    created with, pending and without error. *)
Theorem missing_entry_never_marked
    (clock : nat -> Z) (random : nat -> Q) (actions : string -> option Action)
    (servers : list MCPServer.t) (chain : list string) (w : World)
    (k : nat) (entryId : string) :
  nth_error chain k = Some entryId ->
  entryId = "" \/ findServer servers entryId = None ->
  exists w' E,
    executeChain clock random actions servers chain w = (Normal tt, w')
    /\ trace w' = trace w ++ E
    /\ (forall steps, In (EvSetSteps steps) E ->
                      nth_error steps k = Some (newStep servers entryId))
    /\ nth_error (executionSteps (ui w')) k = Some (newStep servers entryId)
    /\ ExecutionStep.status (newStep servers entryId) = pending
    /\ ExecutionStep.error (newStep servers entryId) = None.
Proof.
  intros Hk Hmiss.
  assert (NE : chain <> []) by (intros ->; destruct k; discriminate Hk).
  destruct (executeChain_runs clock random actions servers chain w NE)
    as (w' & E & p' & fin & Run & Loop & T & U & L & Last).
  set (init := map (newStep servers) chain) in *.
  assert (Hinit : nth_error init k = Some (newStep servers entryId)).
  { unfold init. now rewrite nth_error_map, Hk. }
  assert (Hloop : forall steps, In (EvSetSteps steps) E ->
                    nth_error steps k = Some (newStep servers entryId)).
  { intros steps H.
    destruct (loop_snapshot servers init _ _ _ _ steps Loop H)
      as (i & _ & (server & st & Hst & Hid & Hsrv) & Agree & _).
    rewrite <- Hinit. apply Agree. intros ->.
    rewrite Hinit in Hst. injection Hst as <-. cbn in Hid, Hsrv.
    destruct Hmiss as [Hm|Hm]; [contradiction | congruence]. }
  assert (Hfin : nth_error fin k = Some (newStep servers entryId)).
  { destruct Last as [-> | Seen]; [exact Hinit | now apply Hloop]. }
  exists w'. eexists. split; [exact Run|]. split; [exact T|].
  split; [|split; [rewrite U; exact Hfin | split; reflexivity]].
  intros steps [H|H]; [injection H as <-; exact Hinit|].
  apply in_app_or in H as [H|H]; [now apply Hloop|].
  cbn in H. destruct H as [H|[H|[]]]; [discriminate H|].
  injection H as <-. exact Hfin.
Qed.

(* ================================================================== *)
(** ** The step list at the end of a run *)
(* ================================================================== *)

(** C3, evaluated where it fails.  Both servers of the chain s1, s2 are in
    the catalog and both actions resolve.  The step list keeps its length,
    but each call of [executeStep] rebuilds the list it publishes from the
    list of pending steps made at the start of the run, so the record of
    the first step is overwritten when the second starts: at the end the
    first step is pending, and the outcome is partial with 1 of 2. *)
Theorem earlier_steps_left_pending :
  fst pairRun = Normal tt
  /\ List.length (executionSteps (ui (snd pairRun))) = 2
  /\ statuses (executionSteps (ui (snd pairRun))) = [pending; completed]
  /\ In (EvSetSteps
           [ExecutionStep.mk "step-s1" "s1" "slack-connector" completed None
              (Some (VObj [("channels",
                            VArr [VStr "#general"; VStr "#dev"; VStr "#random"]);
                           ("messages_sent", VNum 3);
                           ("users_notified", VNum 12)]))
              None (Some 0%Z) (Some 0%Z);
            ExecutionStep.mk "step-s2" "s2" "github-integration" pending None
              None None None None])
        (trace (snd pairRun))
  /\ option_map Results.status (executionResults (ui (snd pairRun)))
     = Some partial
  /\ option_map Results.completedSteps (executionResults (ui (snd pairRun)))
     = Some 1.
Proof.
  split; [vm_compute; reflexivity|].
  split; [vm_compute; reflexivity|].
  split; [vm_compute; reflexivity|].
  split; [in_run|].
  split; vm_compute; reflexivity.
Qed.

Lemma countCompleted_lt (steps : list ExecutionStep.t) (k : nat) :
  statusAt steps k = Some pending ->
  countCompleted steps < List.length steps.
Proof.
  unfold statusAt, countCompleted. revert k.
  induction steps as [|s steps IH]; intros k H.
  - destruct k; discriminate H.
  - destruct k as [|k]; cbn in H |- *.
    + injection H as ->. cbn.
      pose proof (filter_length_le
                    (fun s => StepStatus_eqb (ExecutionStep.status s) completed)
                    steps). lia.
    + specialize (IH k H).
      destruct (StepStatus_eqb (ExecutionStep.status s) completed); cbn; lia.
Qed.

(** X16.  For every chain of two entries or more, whatever the catalog
    and the actions, at the end of the run a step is still pending, and
    the outcome is partial. *)
Theorem longer_chains_end_partial
    (clock : nat -> Z) (random : nat -> Q) (actions : string -> option Action)
    (servers : list MCPServer.t) (chain : list string) (w : World) :
  2 <= List.length chain ->
  exists w' k r,
    executeChain clock random actions servers chain w = (Normal tt, w')
    /\ k < List.length chain
    /\ statusAt (executionSteps (ui w')) k = Some pending
    /\ executionResults (ui w') = Some r
    /\ Results.status r = partial.
Proof.
  intros Len.
  assert (NE : chain <> []) by (intros ->; cbn in Len; lia).
  destruct (executeChain_runs clock random actions servers chain w NE)
    as (w' & E & p' & fin & Run & Loop & T & U & L & Last).
  set (init := map (newStep servers) chain) in *.
  assert (Hinit : forall k, k < List.length chain ->
                    statusAt init k = Some pending).
  { intros k Hk. unfold statusAt, init. rewrite nth_error_map.
    destruct (nth_error chain k) eqn:Hn; [reflexivity|].
    apply nth_error_None in Hn. lia. }
  assert (Hfin : exists k, k < List.length chain
                           /\ statusAt fin k = Some pending).
  { destruct Last as [-> | Seen].
    - exists 0. split; [lia | apply Hinit; lia].
    - destruct (loop_snapshot servers init _ _ _ _ fin Loop Seen)
        as (i & _ & _ & Agree & _).
      exists (if Nat.eqb i 0 then 1 else 0).
      destruct (Nat.eqb_spec i 0) as [->|Hi].
      + split; [lia|]. unfold statusAt. rewrite (Agree 1) by lia.
        apply Hinit. lia.
      + split; [lia|]. unfold statusAt. rewrite (Agree 0) by lia.
        apply Hinit. lia. }
  destruct Hfin as (k & Hk & Hp).
  exists w', k, (outcomeOf chain fin). rewrite U. cbn.
  split; [exact Run|]. split; [exact Hk|]. split; [exact Hp|].
  split; [reflexivity|].
  pose proof (countCompleted_lt fin k Hp) as Lt. rewrite L in Lt.
  destruct (Nat.eqb_spec (countCompleted fin) (List.length chain));
    [lia | reflexivity].
Qed.

(* ================================================================== *)
(** ** Order of the transitions *)
(* ================================================================== *)

Lemma skipRun_second_running : shows (trace (snd skipRun)) 4 1 running.
Proof. apply showsb_spec. vm_compute. reflexivity. Qed.

Lemma skipRun_first_pending :
  allSnapshots (fun steps => statusIs steps 0 pending) (trace (snd skipRun))
  = true.
Proof. vm_compute. reflexivity. Qed.

Lemma skipRun_first_never (s : StepStatus) (t : nat) :
  s <> pending -> ~ shows (trace (snd skipRun)) t 0 s.
Proof.
  intros Hs. apply (never_shown _ _ _ _ skipRun_first_pending).
  intros steps H. apply statusIs_spec in H.
  unfold statusIs. rewrite H. destruct s; try reflexivity. contradiction.
Qed.

(** C5, evaluated where it fails.  In the chain gone, s1 the first server
    is not in the catalog: its step is given up before it is marked
    running, and is never marked failed either, so the second step is
    shown running while the first has never been shown in a final
    status. *)
Theorem running_after_unfinished_step :
  shows (trace (snd skipRun)) 4 1 running
  /\ (forall t, ~ shows (trace (snd skipRun)) t 0 completed
                /\ ~ shows (trace (snd skipRun)) t 0 failed)
  /\ ~ SequentialOrder (trace (snd skipRun)).
Proof.
  split; [exact skipRun_second_running|]. split.
  - intros t. split; apply skipRun_first_never; discriminate.
  - intros H.
    destruct (H 0 4 skipRun_second_running) as (t' & _ & [C|C]);
      revert C; apply skipRun_first_never; discriminate.
Qed.

Lemma created_steps_pending servers chain k s :
  statusAt (map (newStep servers) chain) k = Some s -> s = pending.
Proof.
  unfold statusAt. rewrite nth_error_map.
  destruct (nth_error chain k); cbn; congruence.
Qed.

(** X17.  Where every identifier of the chain is in the catalog (and none
    is empty) the order is kept: in the events of the run, a step is shown
    running only after the step before it was shown completed or
    failed. *)
Theorem order_kept_when_all_resolve
    (clock : nat -> Z) (random : nat -> Q) (actions : string -> option Action)
    (servers : list MCPServer.t) (chain : list string) (w : World) :
  (forall entryId, In entryId chain ->
                   entryId <> "" /\ findServer servers entryId <> None) ->
  exists w' E,
    executeChain clock random actions servers chain w = (Normal tt, w')
    /\ trace w' = trace w ++ E
    /\ SequentialOrder E.
Proof.
  intros Hres.
  destruct chain as [|x xs] eqn:Ec.
  - eexists. exists [EvConsole Warn "No servers in orchestration chain" None].
    split; [reflexivity|]. split; [reflexivity|].
    intros i t (steps & Hn & _).
    destruct t as [|[|t]]; discriminate Hn.
  - rewrite <- Ec in *.
    assert (NE : chain <> []) by (rewrite Ec; discriminate).
    clear Ec x xs.
    destruct (executeChain_runs clock random actions servers chain w NE)
      as (w' & E & p' & fin & Run & Loop & T & U & L & Last).
    set (init := map (newStep servers) chain) in *.
    pose proof (created_steps_pending servers chain) as Pend. fold init in Pend.
    assert (Res : forall j, 0 <= j < 0 + List.length chain ->
                    exists server,
                      resolved_by servers (nth_error init j) server).
    { intros j Hj. destruct (nth_error chain j) as [entryId|] eqn:Hn.
      - destruct (Hres entryId (nth_error_In _ _ Hn)) as [Hid Hsrv].
        destruct (findServer servers entryId) as [server|] eqn:F;
          [|contradiction].
        exists server, (newStep servers entryId).
        unfold init. rewrite nth_error_map, Hn. cbn. auto.
      - apply nth_error_None in Hn. lia. }
    assert (Order : forall i t, shows E t (S i) running ->
                      exists t', t' < t
                        /\ (shows E t' i completed \/ shows E t' i failed)).
    { intros i t Sh.
      apply (loop_order servers init Pend _ _ _ _ _ Loop Res i t Sh). lia. }
    exists w'. eexists. split; [exact Run|]. split; [exact T|].
    intros i t Sh.
    assert (Lift : forall t0, t0 < List.length E ->
              shows E t0 (S i) running ->
              S t0 <= t ->
              exists t', t' < t
                /\ (shows (EvSetSteps init
                            :: E ++ [EvComplete fin; EvSetSteps fin]) t' i completed
                    \/ shows (EvSetSteps init
                               :: E ++ [EvComplete fin; EvSetSteps fin]) t' i failed)).
    { intros t0 Lt0 Sh0 Le.
      destruct (Order i t0 Sh0) as (t' & Lt' & Term).
      exists (S t'). split; [lia|].
      destruct Term as [Term|Term]; [left|right];
        apply (shows_app_r [EvSetSteps init]);
        apply shows_app_l; (lia || assumption). }
    destruct t as [|t1].
    + destruct Sh as (steps & Hn & Hs). injection Hn as <-.
      apply Pend in Hs. discriminate Hs.
    + assert (Sh1 : shows (E ++ [EvComplete fin; EvSetSteps fin]) t1 (S i) running).
      { destruct Sh as (steps & Hn & Hs). exists steps. auto. }
      apply shows_app_inv in Sh1 as [[Lt Sh1]|[Ge Sh1]].
      * apply (Lift t1 Lt Sh1). lia.
      * destruct Sh1 as (steps & Hn & Hs).
        destruct (t1 - List.length E) as [|[|n]] eqn:Et; try discriminate Hn.
        { injection Hn as <-.
          destruct Last as [-> | Seen]; [apply Pend in Hs; discriminate Hs|].
          destruct (in_shows E fin (S i) running Seen Hs) as (t0 & Lt0 & Sh0).
          apply (Lift t0 Lt0 Sh0). lia. }
        { destruct n; discriminate Hn. }
Qed.

(* ================================================================== *)
(** ** The published outcome *)
(* ================================================================== *)

Lemma countCompleted_le (steps : list ExecutionStep.t) :
  countCompleted steps <= List.length steps.
Proof. apply filter_length_le. Qed.

Lemma sumDurations_from (steps : list ExecutionStep.t) :
  forall acc,
    fold_left (fun sum step => (sum + durationOrZero step)%Z) steps acc
    = (acc + fold_right Z.add 0%Z (map durationOrZero steps))%Z.
Proof.
  induction steps as [|s steps IH]; intros acc; cbn.
  - lia.
  - rewrite IH. lia.
Qed.

Lemma sumDurations_sum (steps : list ExecutionStep.t) :
  sumDurations steps = fold_right Z.add 0%Z (map durationOrZero steps).
Proof. unfold sumDurations. apply (sumDurations_from steps 0%Z). Qed.

(** The outcome is computed from the step list the run leaves in the
    state: its completed count is the number of steps completed in that
    list; it is success exactly when that count is n and partial exactly
    when it is below n (zero included); it is never error. *)
Lemma outcome_of_final_list
    (clock : nat -> Z) (random : nat -> Q) (actions : string -> option Action)
    (servers : list MCPServer.t) (chain : list string) (w : World) :
  chain <> [] ->
  exists w' r,
    executeChain clock random actions servers chain w = (Normal tt, w')
    /\ executionResults (ui w') = Some r
    /\ Results.totalSteps r = List.length chain
    /\ Results.completedSteps r = countCompleted (executionSteps (ui w'))
    /\ (Results.status r = success <->
        Results.completedSteps r = List.length chain)
    /\ (Results.status r = partial <->
        Results.completedSteps r < List.length chain)
    /\ Results.status r <> error
    /\ Results.totalDuration r =
       Some (fold_right Z.add 0%Z
               (map durationOrZero (executionSteps (ui w')))).
Proof.
  intros NE.
  destruct (executeChain_runs clock random actions servers chain w NE)
    as (w' & E & p' & fin & Run & _ & _ & U & L & _).
  exists w', (outcomeOf chain fin).
  rewrite U. cbn.
  pose proof (countCompleted_le fin) as Le. rewrite L in Le.
  split; [exact Run|].
  split; [reflexivity|]. split; [reflexivity|]. split; [reflexivity|].
  split; [|split; [|split]].
  - destruct (Nat.eqb_spec (countCompleted fin) (List.length chain));
      split; intros; try discriminate; try reflexivity; try lia.
  - destruct (Nat.eqb_spec (countCompleted fin) (List.length chain));
      split; intros; try discriminate; try reflexivity; try lia.
  - destruct (Nat.eqb_spec (countCompleted fin) (List.length chain));
      discriminate.
  - now rewrite sumDurations_sum.
Qed.

(** C4, evaluated where it fails.  Both servers of the chain s1, s2 are
    in the catalog and both actions resolve: each of the two steps is
    shown completed during the run and the console receives no error.
    The count the outcome is classified by is taken from the step list
    the run leaves, in which the first step is pending again (each call
    of [executeStep] rebuilds the list from the pending steps made at the
    start): the outcome is partial with 1 of 2, where the law asks for
    success. *)
Theorem completed_steps_miscounted :
  fst pairRun = Normal tt
  /\ completedInRun (trace (snd pairRun)) 2 = 2
  /\ errorsLogged (trace (snd pairRun)) = []
  /\ executionResults (ui (snd pairRun))
     = Some (Results.mk partial None 2 1 (Some 0%Z))
  /\ ~ ClassificationLaw 2 (trace (snd pairRun))
         (Results.mk partial None 2 1 (Some 0%Z)).
Proof.
  assert (Count : completedInRun (trace (snd pairRun)) 2 = 2)
    by (vm_compute; reflexivity).
  split; [vm_compute; reflexivity|].
  split; [exact Count|].
  split; [vm_compute; reflexivity|].
  split; [vm_compute; reflexivity|].
  intros [_ [Partial _]].
  pose proof (Partial eq_refl) as Below.
  rewrite Count in Below. lia.
Qed.

(** C7, evaluated where it fails.  On a clock that is a second later at
    every reading, each of the two steps of the chain s1, s2 is published
    with the duration it recorded, -1000 (the reading at the end of the
    step minus the next reading, as the step object passed in carries no
    start time).  The total is summed over the step list the run leaves,
    in which the first step has lost its record: it is -1000, where the
    sum of the durations of the steps of the run is -2000. *)
Theorem total_duration_misses_steps :
  fst risingRun = Normal tt
  /\ map (durationInRun (trace (snd risingRun))) [0; 1]
     = [Some (-1000)%Z; Some (-1000)%Z]
  /\ map ExecutionStep.duration (executionSteps (ui (snd risingRun)))
     = [None; Some (-1000)%Z]
  /\ executionResults (ui (snd risingRun))
     = Some (Results.mk partial None 2 1 (Some (-1000)%Z))
  /\ ~ DurationAggregation 2 (trace (snd risingRun))
         (Results.mk partial None 2 1 (Some (-1000)%Z)).
Proof.
  assert (Recorded : map (fun k => match durationInRun
                                           (trace (snd risingRun)) k with
                                   | Some d => d
                                   | None => 0%Z
                                   end) (seq 0 2)
                     = [(-1000)%Z; (-1000)%Z])
    by (vm_compute; reflexivity).
  split; [vm_compute; reflexivity|].
  split; [vm_compute; reflexivity|].
  split; [vm_compute; reflexivity|].
  split; [vm_compute; reflexivity|].
  unfold DurationAggregation. rewrite Recorded. cbn. discriminate.
Qed.

(** C10.  For every chain that is not empty: the body of the outer try of
    the run never throws, since whatever a step throws is caught in its
    own turn of the loop; so the outer catch does not run, nothing is
    logged as a failure of the chain, the call returns normally and the
    published outcome is success or partial, never error. *)
Theorem run_level_error_unreachable
    (clock : nat -> Z) (random : nat -> Q) (actions : string -> option Action)
    (servers : list MCPServer.t) (chain : list string) (w : World) :
  chain <> [] ->
  (forall w0 currentSteps indices p,
      exists p' w1,
        forLoop clock random actions servers currentSteps indices p w0
        = (Normal p', w1))
  /\ (forall w0, exists w1,
        chainBody clock random actions servers chain w0 = (Normal tt, w1))
  /\ exists w' E r,
       executeChain clock random actions servers chain w = (Normal tt, w')
       /\ trace w' = trace w ++ E
       /\ (forall e, ~ In (EvConsole Err "Chain execution failed:" (Some e)) E)
       /\ executionResults (ui w') = Some r
       /\ (Results.status r = success \/ Results.status r = partial).
Proof.
  intros NE. split; [|split].
  - intros w0 cs indices p.
    destruct (forLoop_runs clock random actions servers cs indices p w0)
      as (p' & w1 & _ & H & _).
    eauto.
  - intros w0.
    destruct (chainBody_runs clock random actions servers chain w0)
      as (w1 & _ & _ & _ & H & _).
    eauto.
  - destruct (executeChain_runs clock random actions servers chain w NE)
      as (w' & E & p' & fin & Run & Loop & T & U & L & _).
    eexists w', _, (outcomeOf chain fin).
    split; [exact Run|]. split; [exact T|].
    rewrite U. cbn. split; [|split; [reflexivity|]].
    + intros e [H|H]; [discriminate H|].
      apply in_app_or in H as [H|H]; [|not_in_list H].
      revert H. eapply loop_logs_steps_only. exact Loop.
    + destruct (Nat.eqb (countCompleted fin) (List.length chain)); auto.
Qed.

Lemma run_level_error_unreachable_witness :
  exists w' E r,
    demoRun ["gone"] = (Normal tt, w')
    /\ trace w' = trace freshWorld ++ E
    /\ (forall e, ~ In (EvConsole Err "Chain execution failed:" (Some e)) E)
    /\ executionResults (ui w') = Some r
    /\ (Results.status r = success \/ Results.status r = partial).
Proof.
  refine (proj2 (proj2 (run_level_error_unreachable demoClock demoRandom
                          mockServerExecutions demoServers ["gone"]
                          freshWorld _))).
  discriminate.
Defined.

(* ================================================================== *)
(** ** The empty chain *)
(* ================================================================== *)

(** C6, as stated, fails.  On the empty chain, from the state of a fresh
    component, the call returns normally and publishes no outcome at all:
    nothing goes down the error path of the run. *)
Lemma empty_chain_not_rejected :
  ~ EmptyChainRejected freshWorld
      (executeChain demoClock demoRandom mockServerExecutions demoServers []
                    freshWorld).
Proof.
  intros (_ & _ & _ & [[e H]|[r [H _]]]); discriminate H.
Qed.

(** C6, amended.  On the empty chain the call does nothing but warn on
    the console and return normally: no step is attempted, no step list
    is written, the four state cells keep their values, so no outcome of
    any kind, success, partial or error, is produced. *)
Theorem empty_chain_only_warns
    (clock : nat -> Z) (random : nat -> Q) (actions : string -> option Action)
    (servers : list MCPServer.t) (w : World) :
  exists w',
    executeChain clock random actions servers [] w = (Normal tt, w')
    /\ ui w' = ui w
    /\ trace w' =
       trace w ++ [EvConsole Warn "No servers in orchestration chain" None]
    /\ (forall E, trace w' = trace w ++ E ->
          (forall k v, ~ attemptedWith E k v)
          /\ (forall steps, ~ In (EvSetSteps steps) E)).
Proof.
  eexists. split; [reflexivity|]. cbn.
  split; [reflexivity|]. split; [reflexivity|].
  intros E HE. apply app_inv_head in HE. subst E.
  unfold attemptedWith.
  split; intros; intros [H|[]]; discriminate H.
Qed.

(* ================================================================== *)
(** ** Step identifiers *)
(* ================================================================== *)

(** C8, as stated, fails.  A chain that names the same entry twice gets
    two steps with the same id. *)
Lemma duplicate_entries_share_id :
  stepIds (createdSteps demoServers ["s1"; "s1"]) = ["step-s1"; "step-s1"]
  /\ ~ NoDup (stepIds (createdSteps demoServers ["s1"; "s1"])).
Proof.
  split; [reflexivity|].
  intros H. inversion H as [|x l Hin _]; subst. apply Hin. left. reflexivity.
Qed.

Lemma stepIds_created servers chain :
  stepIds (createdSteps servers chain) = map (fun s => "step-" ++ s)%string chain.
Proof.
  unfold stepIds, createdSteps. cbn. rewrite map_map. reflexivity.
Qed.

(** The parent never builds a chain that names an entry twice. *)
Lemma applyEdit_NoDup chain e : NoDup chain -> NoDup (applyEdit chain e).
Proof.
  intros ND. destruct e as [serverId | serverId |]; cbn.
  - unfold addToOrchestration.
    destruct (existsb (String.eqb serverId) chain) eqn:Ex; [exact ND|].
    apply NoDup_app; [exact ND | repeat constructor; intros [] |].
    intros x Hx [->|[]].
    assert (existsb (String.eqb x) chain = true) as Hex.
    { apply existsb_exists. exists x. split; [exact Hx | apply String.eqb_refl]. }
    congruence.
  - unfold removeFromOrchestration. now apply NoDup_filter.
  - constructor.
Qed.

Lemma chainAfter_NoDup edits : NoDup (chainAfter edits).
Proof.
  unfold chainAfter.
  assert (G : forall chain, NoDup chain -> NoDup (fold_left applyEdit edits chain)).
  { induction edits as [|e edits IH]; intros chain ND; cbn; [exact ND|].
    apply IH. now apply applyEdit_NoDup. }
  apply G. constructor.
Qed.

Lemma prefixed_NoDup (chain : list string) :
  NoDup chain -> NoDup (map (fun s => "step-" ++ s)%string chain).
Proof.
  induction 1 as [|x l Hx ND IH]; cbn; constructor; [|exact IH].
  intros Hin. apply in_map_iff in Hin as (y & Hy & Hin).
  injection Hy as ->. contradiction.
Qed.

(** X19.  The steps made for any chain the parent can hand over, one
    built from the empty chain by adding, removing and clearing, have
    pairwise distinct ids. *)
Lemma parent_chain_ids_unique servers edits :
  NoDup (stepIds (createdSteps servers (chainAfter edits))).
Proof.
  rewrite stepIds_created. apply prefixed_NoDup, chainAfter_NoDup.
Qed.

(** C8, amended.  The id of a step is its entry identifier after the
    prefix step-, so the steps made for a chain whose identifiers are
    pairwise distinct (the parent component adds an identifier only if the
    chain does not hold it yet) have pairwise distinct ids, and the list
    written to the state is the list returned. *)
Theorem step_ids_unique_without_duplicates
    (servers : list MCPServer.t) (chain : list string) (w : World) :
  NoDup chain ->
  exists steps w',
    initializeExecution servers chain w = (Normal steps, w')
    /\ executionSteps (ui w') = steps
    /\ stepIds steps = map (fun s => "step-" ++ s)%string chain
    /\ NoDup (stepIds steps).
Proof.
  intros ND.
  eexists. eexists. split; [reflexivity|]. cbn.
  split; [reflexivity|].
  assert (Ids : stepIds (map (newStep servers) chain)
                = map (fun s => "step-" ++ s)%string chain).
  { unfold stepIds. rewrite map_map. reflexivity. }
  split; [exact Ids|]. rewrite Ids. now apply prefixed_NoDup.
Qed.

Lemma step_ids_unique_without_duplicates_witness :
  NoDup ["s1"; "gone"; "s2"]
  /\ exists steps w',
       initializeExecution demoServers ["s1"; "gone"; "s2"] freshWorld
       = (Normal steps, w')
       /\ executionSteps (ui w') = steps
       /\ stepIds steps = map (fun s => "step-" ++ s)%string ["s1"; "gone"; "s2"]
       /\ NoDup (stepIds steps).
Proof.
  assert (ND : NoDup ["s1"; "gone"; "s2"]).
  { repeat constructor; cbn; intros H;
      repeat (destruct H as [H|H]; [discriminate H|]); contradiction. }
  split; [exact ND|].
  exact (step_ids_unique_without_duplicates demoServers ["s1"; "gone"; "s2"]
           freshWorld ND).
Defined.

(* ================================================================== *)
(** ** Reset *)
(* ================================================================== *)

(** C9.  After a reset the step list is empty, the current index is none
    (-1), the outcome is absent and the component is not executing: the
    state is that of a fresh component.  A second reset leaves that state
    as it is, and a reset of an idle component changes no state cell. *)
Theorem reset_idempotent (w : World) :
  let once := snd (resetExecution w) in
  let twice := snd (resetExecution once) in
  fst (resetExecution w) = Normal tt
  /\ executionSteps (ui once) = []
  /\ currentStepIndex (ui once) = (-1)%Z
  /\ executionResults (ui once) = None
  /\ ui once = idle
  /\ ui twice = ui once
  /\ ui (snd (resetExecution (mkWorld idle (ticks w) (draws w) (trace w))))
     = idle.
Proof.
  cbn. repeat split; reflexivity.
Qed.

(* ================================================================== *)
(** ** One step, in detail *)
(* ================================================================== *)

Section StepDetail.

Variable clock : nat -> Z.
Variable random : nat -> Q.
Variable actions : string -> option Action.
Variable servers : list MCPServer.t.

(** A step that has no start time measures its duration between two
    readings of the clock made in a row, the later one subtracted from
    the earlier one. *)
Lemma elapsed_untimed (step : ExecutionStep.t) (w : World) :
  ExecutionStep.startTime step = None ->
  elapsed clock step w
  = (Normal (clock (ticks w) - clock (S (ticks w)))%Z,
     mkWorld (ui w) (S (S (ticks w))) (draws w) (trace w)).
Proof.
  intros H. unfold elapsed, bind, dateNow, ret. rewrite H. reflexivity.
Qed.

Lemma executeStep_detail server st i steps p w :
  nth_error steps i = Some st ->
  ExecutionStep.serverId st <> "" ->
  findServer servers (ExecutionStep.serverId st) = Some server ->
  ExecutionStep.startTime st = None ->
  let ran :=
    updateAt i (fun s => ExecutionStep.toRunning s (clock (ticks w))) steps in
  exists c w' a fin,
    executeStep clock random actions servers (nth_error steps i) i steps p w
    = (c, w')
    /\ trace w' = trace w ++ [EvCall i p; EvSetSteps ran; EvSetSteps fin]
    /\ ui w' = mkState (isExecuting (ui w)) fin (currentStepIndex (ui w))
                       (executionResults (ui w))
    /\ endsAs actions server i ran p (clock (S (ticks w)))
              (random (S (draws w))) (clock a - clock (S a))%Z c fin.
Proof.
  intros Hnth Hid Hsrv Hst ran.
  rewrite Hnth. unfold executeStep.
  apply String.eqb_neq in Hid.
  unfold bind at 1. unfold emit at 1. cbv iota beta.
  rewrite Hid, Hsrv.
  unfold bind at 1.
  match goal with
  | |- context [mapiM (atIndex i ?g) steps ?w0] =>
      rewrite (mapiM_hit
                 (fun s => ExecutionStep.toRunning s (clock (ticks w0)))
                 g i steps w0 st
                 (mkWorld (ui w0) (S (ticks w0)) (draws w0) (trace w0))
                 Hnth eq_refl)
  end.
  cbn [ui ticks draws trace].
  fold (updateAt i (fun s => ExecutionStep.toRunning s (clock (ticks w))) steps).
  fold ran.
  assert (Hran : nth_error ran i
                 = Some (ExecutionStep.toRunning st (clock (ticks w)))).
  { unfold ran. rewrite updateAt_nth_error, Hnth. cbn.
    now rewrite Nat.eqb_refl. }
  unfold endsAs.
  cbv beta iota delta
    [bind tryCatch setExecutionSteps modifyUi emit genericExecution
     mathRandom dateNow sleep ret throw].
  cbn [ui ticks draws trace isExecuting executionSteps currentStepIndex
       executionResults].
  destruct (actions (MCPServer.name server)) as [executeFn|].
  - destruct (executeFn p) as [e|result]; cbn [liftSum].
    + cbv beta iota delta [throw].
      rewrite elapsed_untimed by exact Hst.
      cbn [ui ticks draws trace isExecuting executionSteps currentStepIndex
           executionResults].
      eexists _, _, _, _. split; [reflexivity|].
      cbn [ui ticks draws trace]. rewrite <- !app_assoc.
      split; [reflexivity|]. split; [reflexivity|].
      split; reflexivity.
    + cbv beta iota delta [ret].
      rewrite elapsed_untimed by exact Hst.
      cbn [ui ticks draws trace isExecuting executionSteps currentStepIndex
           executionResults].
      destruct (getData result) as [e|data] eqn:G.
      * match goal with
        | |- context [mapiM (atIndex i ?g) ran ?w0] =>
            rewrite (mapiM_throw g i ran w0 _ e w0 Hran) by reflexivity
        end.
        rewrite elapsed_untimed by exact Hst.
        cbn [ui ticks draws trace isExecuting executionSteps
             currentStepIndex executionResults].
        eexists _, _, _, _. split; [reflexivity|].
        cbn [ui ticks draws trace]. rewrite <- !app_assoc.
        split; [reflexivity|]. split; [reflexivity|].
        split; reflexivity.
      * match goal with
        | |- context [mapiM (atIndex i ?g) ran ?w0] =>
            rewrite (mapiM_hit
                       (fun s => ExecutionStep.toCompleted s data
                                   (clock (S (ticks w))
                                    - clock (S (S (ticks w))))%Z)
                       g i ran w0 _ w0 Hran)
              by reflexivity
        end.
        cbn [liftSum]. cbv beta iota delta [ret].
        cbn [ui ticks draws trace isExecuting executionSteps
             currentStepIndex executionResults].
        eexists _, _, _, _. split; [reflexivity|].
        cbn [ui ticks draws trace]. rewrite <- !app_assoc.
        split; [reflexivity|]. split; [reflexivity|].
        split; reflexivity.
  - rewrite elapsed_untimed by exact Hst.
    cbn [ui ticks draws trace isExecuting executionSteps currentStepIndex
         executionResults].
    eexists _, _, _, _. split; [reflexivity|].
    cbn [ui ticks draws trace]. rewrite <- !app_assoc.
    split; [reflexivity|]. split; [reflexivity|].
    split; reflexivity.
Qed.

(** The first turn of the loop, spelled out. *)
Lemma forLoop_step currentSteps i rest p w :
  forLoop clock random actions servers currentSteps (i :: rest) p w
  = match executeStep clock random actions servers (nth_error currentSteps i)
            i currentSteps p
            (mkWorld (mkState (isExecuting (ui w)) (executionSteps (ui w))
                              (Z.of_nat i) (executionResults (ui w)))
                     (ticks w) (draws w) (trace w))
    with
    | (Normal out, w1) =>
        forLoop clock random actions servers currentSteps rest out w1
    | (Abrupt e, w1) =>
        forLoop clock random actions servers currentSteps rest p
          (mkWorld (ui w1) (ticks w1) (draws w1)
                   (trace w1 ++ [EvConsole Err (stepFailedMsg i) (Some e)]))
    end.
Proof.
  cbn [forLoop].
  unfold bind at 1. unfold setCurrentStepIndex at 1, modifyUi at 1.
  cbv iota beta.
  unfold bind at 1, tryCatch at 1, bind at 1.
  match goal with
  | |- context [executeStep _ _ _ _ ?s i currentSteps p ?w0] =>
      destruct (executeStep clock random actions servers s i currentSteps p w0)
        as [[out|e] w1]
  end; reflexivity.
Qed.

End StepDetail.

(* ================================================================== *)
(** ** A run, from its loop *)
(* ================================================================== *)

Section RunDetail.

Variable clock : nat -> Z.
Variable random : nat -> Q.
Variable actions : string -> option Action.
Variable servers : list MCPServer.t.
Variable chain : list string.

(** A run of a chain that is not empty hands the fresh steps to the loop
    and publishes what the loop leaves in the state. *)
Lemma executeChain_from_loop w p' w1 :
  chain <> [] ->
  forLoop clock random actions servers (map (newStep servers) chain)
          (seq 0 (List.length chain)) VNull
          (mkWorld (mkState true (map (newStep servers) chain) (-1)%Z None)
                   (ticks w) (draws w)
                   (trace w ++ [EvSetSteps (map (newStep servers) chain)]))
  = (Normal p', w1) ->
  executeChain clock random actions servers chain w
  = (Normal tt,
     mkWorld (mkState false (executionSteps (ui w1)) (-1)%Z
                (Some (outcomeOf chain (executionSteps (ui w1)))))
             (ticks w1) (draws w1)
             (trace w1 ++ [EvComplete (executionSteps (ui w1));
                           EvSetSteps (executionSteps (ui w1))])).
Proof.
  intros NE Loop.
  unfold executeChain.
  assert (Nat.eqb (List.length chain) 0 = false) as ->.
  { destruct chain; [contradiction | reflexivity]. }
  unfold tryFinally, tryCatch, chainBody, initializeExecution.
  cbv beta iota delta
    [bind getUi setIsExecuting setExecutionSteps setCurrentStepIndex
     setExecutionResults modifyUi emit ret sleep].
  cbn [ui ticks draws trace isExecuting executionSteps currentStepIndex
       executionResults].
  rewrite Loop.
  unfold publishOutcome, onExecutionComplete, outcomeOf.
  cbv beta iota delta
    [bind getUi setIsExecuting setExecutionSteps setCurrentStepIndex
     setExecutionResults modifyUi emit ret sleep].
  cbn [ui ticks draws trace isExecuting executionSteps currentStepIndex
       executionResults].
  rewrite <- app_assoc. reflexivity.
Qed.

End RunDetail.

(** The loop of a run and the run itself, side by side. *)
Lemma run_and_loop
    (clock : nat -> Z) (random : nat -> Q) (actions : string -> option Action)
    (servers : list MCPServer.t) (chain : list string) (w : World) :
  chain <> [] ->
  exists p' w1 E,
    forLoop clock random actions servers (map (newStep servers) chain)
            (seq 0 (List.length chain)) VNull (loopStart servers chain w)
    = (Normal p', w1)
    /\ LoopRun servers (map (newStep servers) chain)
               (seq 0 (List.length chain)) VNull E p'
    /\ trace w1 = trace (loopStart servers chain w) ++ E
    /\ List.length (executionSteps (ui w1)) = List.length chain
    /\ (executionSteps (ui w1) = map (newStep servers) chain
        \/ In (EvSetSteps (executionSteps (ui w1))) E)
    /\ executeChain clock random actions servers chain w
       = (Normal tt,
          mkWorld (mkState false (executionSteps (ui w1)) (-1)%Z
                     (Some (outcomeOf chain (executionSteps (ui w1)))))
                  (ticks w1) (draws w1)
                  (trace w ++ runEvents servers chain E (executionSteps (ui w1)))).
Proof.
  intros NE.
  destruct (forLoop_runs clock random actions servers
              (map (newStep servers) chain) (seq 0 (List.length chain)) VNull
              (loopStart servers chain w))
    as (p' & w1 & E & Loop & Run & T & _ & _ & L & Last).
  exists p', w1, E.
  split; [exact Loop|]. split; [exact Run|]. split; [exact T|].
  split; [|split; [exact Last|]].
  - rewrite L; cbn; now rewrite length_map.
  - rewrite (executeChain_from_loop clock random actions servers chain
               w p' w1 NE Loop).
    rewrite T. unfold loopStart, runEvents. cbn [trace].
    rewrite <- !app_assoc. reflexivity.
Qed.

(* ================================================================== *)
(** ** Calls of [executeStep] and of the completion callback *)
(* ================================================================== *)

Lemma iteration_calls servers currentSteps i p p1 E o :
  Iteration servers currentSteps i p p1 E o ->
  callIndices E = [i] /\ completions E = [].
Proof. intros It; destruct It; split; reflexivity. Qed.

Lemma loop_calls servers currentSteps indices p E p' :
  LoopRun servers currentSteps indices p E p' ->
  callIndices E = indices /\ completions E = [].
Proof.
  induction 1 as [|i rest p p1 p2 E1 E2 o It _ [IHc IHd]]; [split; reflexivity|].
  destruct (iteration_calls _ _ _ _ _ _ _ It) as [Hc Hd].
  unfold callIndices, completions in *.
  rewrite !flat_map_app, Hc, Hd, IHc, IHd. split; reflexivity.
Qed.

Lemma runEvents_calls servers chain E fin :
  callIndices (runEvents servers chain E fin) = callIndices E
  /\ completions (runEvents servers chain E fin) = completions E ++ [fin].
Proof.
  unfold runEvents, callIndices, completions. cbn.
  rewrite !flat_map_app. cbn. now rewrite app_nil_r.
Qed.

(** X1.  In every run, [executeStep] is called once for each index of the
    chain, in increasing order, whatever the steps before did. *)
Theorem steps_attempted_in_order
    (clock : nat -> Z) (random : nat -> Q) (actions : string -> option Action)
    (servers : list MCPServer.t) (chain : list string) (w : World) :
  exists w' E,
    executeChain clock random actions servers chain w = (Normal tt, w')
    /\ trace w' = trace w ++ E
    /\ callIndices E = seq 0 (List.length chain).
Proof.
  destruct chain as [|x xs] eqn:Ec.
  - eexists. exists [EvConsole Warn "No servers in orchestration chain" None].
    repeat split; reflexivity.
  - rewrite <- Ec.
    assert (NE : chain <> []) by (rewrite Ec; discriminate).
    destruct (run_and_loop clock random actions servers chain w NE)
      as (p' & w1 & E & _ & Run & _ & _ & _ & Exec).
    eexists. eexists. split; [exact Exec|]. split; [reflexivity|].
    rewrite (proj1 (runEvents_calls _ _ _ _)).
    exact (proj1 (loop_calls _ _ _ _ _ _ Run)).
Qed.

Lemma invoked_effects chain fin extra :
  forall w,
    invoked extra (updaterEffects chain fin) w
    = (Normal tt,
       mkWorld (mkState (isExecuting (ui w)) (executionSteps (ui w))
                  (currentStepIndex (ui w)) (Some (outcomeOf chain fin)))
               (ticks w) (draws w)
               (trace w ++ repeat (EvComplete fin) (S extra))).
Proof.
  induction extra as [|extra IH]; intros w.
  - reflexivity.
  - cbn [invoked]. unfold bind at 1.
    assert (Once : updaterEffects chain fin w
                   = (Normal tt,
                      mkWorld (mkState (isExecuting (ui w))
                                 (executionSteps (ui w))
                                 (currentStepIndex (ui w))
                                 (Some (outcomeOf chain fin)))
                              (ticks w) (draws w)
                              (trace w ++ [EvComplete fin])))
      by reflexivity.
    rewrite Once, IH. cbn [ui ticks draws trace isExecuting executionSteps
                           currentStepIndex].
    rewrite <- app_assoc. reflexivity.
Qed.

Section RunInvoked.

Variable clock : nat -> Z.
Variable random : nat -> Q.
Variable actions : string -> option Action.
Variable servers : list MCPServer.t.
Variable chain : list string.
Variable extra : nat.

Lemma executeChainInvoked_from_loop w p' w1 :
  chain <> [] ->
  forLoop clock random actions servers (map (newStep servers) chain)
          (seq 0 (List.length chain)) VNull (loopStart servers chain w)
  = (Normal p', w1) ->
  executeChainInvoked clock random actions servers chain extra w
  = (Normal tt,
     mkWorld (mkState false (executionSteps (ui w1)) (-1)%Z
                (Some (outcomeOf chain (executionSteps (ui w1)))))
             (ticks w1) (draws w1)
             (trace w1 ++ repeat (EvComplete (executionSteps (ui w1))) (S extra)
                ++ [EvSetSteps (executionSteps (ui w1))])).
Proof.
  intros NE Loop. unfold loopStart in Loop.
  unfold executeChainInvoked.
  assert (Nat.eqb (List.length chain) 0 = false) as ->.
  { destruct chain; [contradiction | reflexivity]. }
  unfold tryFinally, tryCatch, chainBodyInvoked, initializeExecution.
  cbv beta iota delta
    [bind getUi setIsExecuting setExecutionSteps setCurrentStepIndex
     setExecutionResults modifyUi emit ret sleep].
  cbn [ui ticks draws trace isExecuting executionSteps currentStepIndex
       executionResults].
  rewrite Loop.
  unfold publishOutcomeInvoked.
  cbv beta iota delta [bind getUi].
  rewrite invoked_effects.
  cbv beta iota delta
    [bind getUi setIsExecuting setExecutionSteps setCurrentStepIndex
     setExecutionResults modifyUi emit ret sleep].
  cbn [ui ticks draws trace isExecuting executionSteps currentStepIndex
       executionResults].
  rewrite <- !app_assoc. reflexivity.
Qed.

End RunInvoked.

(** X2.  However many times React calls the function that closes the run
    (once at least), a run of a chain that is not empty ends in the state
    the run with a single call ends in, and calls [onExecutionComplete]
    once for each call of that function, never before the last step was
    attempted, each time with the step list the run leaves in the state;
    a run of the empty chain does not call it. *)
Theorem completion_reported_after_last_step
    (clock : nat -> Z) (random : nat -> Q) (actions : string -> option Action)
    (servers : list MCPServer.t) (chain : list string) (extra : nat)
    (w : World) :
  exists w' E,
    executeChainInvoked clock random actions servers chain extra w
    = (Normal tt, w')
    /\ trace w' = trace w ++ E
    /\ ui w' = ui (snd (executeChain clock random actions servers chain w))
    /\ completions E = (if Nat.eqb (List.length chain) 0 then []
                        else repeat (executionSteps (ui w')) (S extra))
    /\ (chain <> [] ->
        exists E0,
          E = E0 ++ repeat (EvComplete (executionSteps (ui w'))) (S extra)
                 ++ [EvSetSteps (executionSteps (ui w'))]
          /\ callIndices E0 = seq 0 (List.length chain)
          /\ completions E0 = []).
Proof.
  destruct (Nat.eqb_spec (List.length chain) 0) as [Len|Len].
  - apply length_zero_iff_nil in Len. subst chain.
    eexists. exists [EvConsole Warn "No servers in orchestration chain" None].
    split; [reflexivity|]. split; [reflexivity|]. split; [reflexivity|].
    split; [reflexivity|]. intros H. now elim H.
  - assert (NE : chain <> []) by (intros ->; now apply Len).
    destruct (run_and_loop clock random actions servers chain w NE)
      as (p' & w1 & E & Loop & Run & T & _ & _ & Exec).
    destruct (loop_calls _ _ _ _ _ _ Run) as [Hc Hd].
    rewrite Exec.
    rewrite (executeChainInvoked_from_loop clock random actions servers chain
               extra w p' w1 NE Loop).
    set (fin := executionSteps (ui w1)).
    eexists.
    exists (EvSetSteps (map (newStep servers) chain)
            :: E ++ repeat (EvComplete fin) (S extra) ++ [EvSetSteps fin]).
    split; [reflexivity|]. cbn [ui trace snd executionSteps].
    split.
    { rewrite T. unfold loopStart. cbn [trace].
      rewrite <- !app_assoc. reflexivity. }
    split; [reflexivity|].
    assert (Rep : completions (repeat (EvComplete fin) (S extra))
                  = repeat fin (S extra)).
    { unfold completions. induction (S extra) as [|n IH]; [reflexivity|].
      cbn. now rewrite IH. }
    split.
    + unfold completions in *. cbn [flat_map]. rewrite !flat_map_app.
      rewrite Hd, Rep. cbn. now rewrite app_nil_r.
    + intros _. exists (EvSetSteps (map (newStep servers) chain) :: E).
      split; [reflexivity|]. split; [exact Hc | exact Hd].
Qed.

(** X3.  The toast the parent raises when a run completes agrees with the
    outcome the component publishes: it is a success toast exactly when
    the outcome is success, a warning exactly when it is partial, and its
    message carries the same two counts. *)
Theorem toast_agrees_with_outcome
    (clock : nat -> Z) (random : nat -> Q) (actions : string -> option Action)
    (servers : list MCPServer.t) (chain : list string) (w : World) :
  chain <> [] ->
  exists w' r,
    executeChain clock random actions servers chain w = (Normal tt, w')
    /\ completions (skipn (List.length (trace w)) (trace w'))
       = [executionSteps (ui w')]
    /\ executionResults (ui w') = Some r
    /\ (Toast.type (handleExecutionComplete (executionSteps (ui w')))
        = ToastSuccess <-> Results.status r = success)
    /\ (Toast.type (handleExecutionComplete (executionSteps (ui w')))
        = ToastWarning <-> Results.status r = partial)
    /\ Toast.message (handleExecutionComplete (executionSteps (ui w')))
       = (showNat (Results.completedSteps r) ++ "/"
            ++ showNat (Results.totalSteps r)
            ++ " steps completed successfully")%string.
Proof.
  intros NE.
  destruct (run_and_loop clock random actions servers chain w NE)
    as (p' & w1 & E & _ & Run & _ & L & _ & Exec).
  eexists. exists (outcomeOf chain (executionSteps (ui w1))).
  split; [exact Exec|].
  cbn [ui executionSteps executionResults trace].
  split.
  { rewrite skipn_app, skipn_all, Nat.sub_diag. cbn [skipn app].
    rewrite (proj2 (runEvents_calls _ _ _ _)).
    now rewrite (proj2 (loop_calls _ _ _ _ _ _ Run)). }
  split; [reflexivity|].
  unfold handleExecutionComplete, outcomeOf. cbn [Toast.type Toast.message
    Results.status Results.completedSteps Results.totalSteps].
  rewrite L.
  destruct (Nat.eqb (countCompleted (executionSteps (ui w1)))
                    (List.length chain));
    repeat split; intros; try discriminate; reflexivity.
Qed.

Lemma toast_agrees_with_outcome_witness :
  exists w' r,
    demoRun ["s1"; "gone"] = (Normal tt, w')
    /\ completions (skipn (List.length (trace freshWorld)) (trace w'))
       = [executionSteps (ui w')]
    /\ executionResults (ui w') = Some r
    /\ (Toast.type (handleExecutionComplete (executionSteps (ui w')))
        = ToastSuccess <-> Results.status r = success)
    /\ (Toast.type (handleExecutionComplete (executionSteps (ui w')))
        = ToastWarning <-> Results.status r = partial)
    /\ Toast.message (handleExecutionComplete (executionSteps (ui w')))
       = (showNat (Results.completedSteps r) ++ "/"
            ++ showNat (Results.totalSteps r)
            ++ " steps completed successfully")%string.
Proof.
  apply (toast_agrees_with_outcome demoClock demoRandom mockServerExecutions
           demoServers ["s1"; "gone"] freshWorld).
  discriminate.
Defined.

(* ================================================================== *)
(** ** What a published step says of its turn *)
(* ================================================================== *)

Section SnapshotFacts.

Variable servers : list MCPServer.t.
Variable currentSteps : list ExecutionStep.t.

Hypothesis startPending :
  forall k s, statusAt currentSteps k = Some s -> s = pending.

Lemma statusAt_of steps k st :
  nth_error steps k = Some st -> statusAt steps k = Some (ExecutionStep.status st).
Proof. intros H. unfold statusAt. now rewrite H. Qed.

(** A step shown in a status other than pending is the step of the turn
    that publishes the list. *)
Lemma turn_of_snapshot indices p E p' steps k st :
  LoopRun servers currentSteps indices p E p' ->
  In (EvSetSteps steps) E ->
  nth_error steps k = Some st -> ExecutionStep.status st <> pending ->
  In k indices.
Proof.
  intros Run Hin Hst Hne.
  destruct (loop_snapshot _ _ _ _ _ _ steps Run Hin) as (i & Hi & P).
  rewrite (published_own_index servers currentSteps startPending i steps k
             (ExecutionStep.status st) P (statusAt_of _ _ _ Hst) Hne).
  exact Hi.
Qed.

Lemma iteration_completed i p p1 E o steps st :
  Iteration servers currentSteps i p p1 E o ->
  In (EvSetSteps steps) E ->
  nth_error steps i = Some st -> ExecutionStep.status st = completed ->
  ExecutionStep.output st = Some p1.
Proof.
  intros It H Hst Hc.
  destruct It as [e U | server now data d R ran fin | server now e d R ran fin];
    cbn in H;
    repeat (destruct H as [H|H]; try discriminate H; try contradiction);
    injection H as <-;
    destruct R as (st0 & Hst0 & _);
    subst fin; unfold ran in Hst;
    rewrite !updateAt_nth_error, Hst0, Nat.eqb_refl in Hst; cbn in Hst;
    injection Hst as <-; cbn in Hc |- *;
    first [discriminate Hc | reflexivity].
Qed.

Lemma iteration_failure i p p1 E o steps st :
  Iteration servers currentSteps i p p1 E o ->
  In (EvSetSteps steps) E ->
  nth_error steps i = Some st -> ExecutionStep.status st = failed ->
  exists e,
    ExecutionStep.error st = Some (messageOr "Unknown error" e)
    /\ In (EvConsole Err (stepFailedMsg i) (Some e)) E.
Proof.
  intros It H Hst Hc.
  destruct It as [e U | server now data d R ran fin | server now e d R ran fin];
    cbn in H;
    repeat (destruct H as [H|H]; try discriminate H; try contradiction);
    injection H as <-;
    destruct R as (st0 & Hst0 & _);
    subst fin; unfold ran in Hst;
    rewrite !updateAt_nth_error, Hst0, Nat.eqb_refl in Hst; cbn in Hst;
    injection Hst as <-; cbn in Hc |- *;
    try discriminate Hc.
  exists e. split; [reflexivity|]. cbn. auto.
Qed.

(** The output shown on a completed step is what the next turn is
    entered with. *)
Lemma loop_thread m :
  forall a p E p' steps k st v,
    LoopRun servers currentSteps (seq a m) p E p' ->
    In (EvSetSteps steps) E ->
    nth_error steps k = Some st ->
    ExecutionStep.status st = completed ->
    ExecutionStep.output st = Some v ->
    S k < a + m ->
    attemptedWith E (S k) v.
Proof.
  induction m as [|m IH]; intros a p E p' steps k st v Run Hin Hst Hc Ho Hk.
  - inversion Run; subst. contradiction.
  - cbn [seq] in Run.
    inversion Run as [|j rest q p1 p2 E1 E2 o It Run' Ej Eq EE Ep]; subst.
    unfold attemptedWith. apply in_or_app. right.
    apply in_app_or in Hin as [Hin|Hin].
    + pose proof (iteration_snapshot _ _ _ _ _ _ _ steps It Hin) as P.
      assert (k = a) as ->.
      { apply (published_own_index servers currentSteps startPending a steps k
                 completed P); [|discriminate].
        rewrite (statusAt_of _ _ _ Hst). now rewrite Hc. }
      rewrite (iteration_completed _ _ _ _ _ _ _ It Hin Hst Hc) in Ho.
      injection Ho as <-.
      destruct m as [|m]; [lia|].
      eapply loop_head; exact Run'.
    + assert (In k (seq (S a) m)) as Hin'.
      { apply (turn_of_snapshot _ _ _ _ _ _ _ Run' Hin Hst).
        rewrite Hc. discriminate. }
      apply in_seq in Hin'.
      apply (IH (S a) p1 E2 p' steps k st v Run' Hin Hst Hc Ho). lia.
Qed.

(** A failure shown on a step was logged by the loop, with its cause. *)
Lemma loop_failure_logged indices p E p' steps k st :
  LoopRun servers currentSteps indices p E p' ->
  In (EvSetSteps steps) E ->
  nth_error steps k = Some st ->
  ExecutionStep.status st = failed ->
  exists e,
    ExecutionStep.error st = Some (messageOr "Unknown error" e)
    /\ In (EvConsole Err (stepFailedMsg k) (Some e)) E.
Proof.
  induction 1 as [|i rest p p1 p2 E1 E2 o It _ IH]; [contradiction|].
  intros Hin Hst Hc.
  apply in_app_or in Hin as [Hin|Hin].
  - pose proof (iteration_snapshot _ _ _ _ _ _ _ steps It Hin) as P.
    assert (k = i) as ->.
    { apply (published_own_index servers currentSteps startPending i steps k
               failed P); [|discriminate].
      rewrite (statusAt_of _ _ _ Hst). now rewrite Hc. }
    destruct (iteration_failure _ _ _ _ _ _ _ It Hin Hst Hc) as (e & He & Hl).
    exists e. split; [exact He|]. apply in_or_app. now left.
  - destruct (IH Hin Hst Hc) as (e & He & Hl).
    exists e. split; [exact He|]. apply in_or_app. now right.
Qed.

End SnapshotFacts.

Lemma run_snapshot servers chain E fin steps :
  fin = map (newStep servers) chain \/ In (EvSetSteps fin) E ->
  In (EvSetSteps steps) (runEvents servers chain E fin) ->
  steps = map (newStep servers) chain \/ In (EvSetSteps steps) E.
Proof.
  intros Last [H|H]; [injection H as <-; now left|].
  apply in_app_or in H as [H|H]; [now right|].
  cbn in H. destruct H as [H|[H|[]]]; [discriminate H|].
  injection H as <-. exact Last.
Qed.

Lemma runEvents_loop servers chain E fin e :
  In e E -> In e (runEvents servers chain E fin).
Proof. intros H. right. apply in_or_app. now left. Qed.

Lemma created_step_pending servers chain k st :
  nth_error (map (newStep servers) chain) k = Some st ->
  ExecutionStep.status st = pending.
Proof.
  rewrite nth_error_map. destruct (nth_error chain k); [|discriminate].
  cbn. now intros [= <-].
Qed.

(** X4.  In every run, the output shown on a completed step is the value
    the next step is attempted with. *)
Theorem output_feeds_next_step
    (clock : nat -> Z) (random : nat -> Q) (actions : string -> option Action)
    (servers : list MCPServer.t) (chain : list string) (w : World) :
  exists w' E,
    executeChain clock random actions servers chain w = (Normal tt, w')
    /\ trace w' = trace w ++ E
    /\ forall steps k st v,
         In (EvSetSteps steps) E ->
         nth_error steps k = Some st ->
         ExecutionStep.status st = completed ->
         ExecutionStep.output st = Some v ->
         S k < List.length chain ->
         attemptedWith E (S k) v.
Proof.
  destruct (Nat.eqb_spec (List.length chain) 0) as [Len|Len].
  - apply length_zero_iff_nil in Len. subst chain.
    eexists. exists [EvConsole Warn "No servers in orchestration chain" None].
    split; [reflexivity|]. split; [reflexivity|].
    cbn. intros; lia.
  - assert (NE : chain <> []) by (intros ->; now apply Len).
    destruct (run_and_loop clock random actions servers chain w NE)
      as (p' & w1 & E & _ & Run & _ & _ & Last & Exec).
    eexists. eexists. split; [exact Exec|]. split; [reflexivity|].
    intros steps k st v Hin Hst Hc Ho Hk.
    apply (run_snapshot _ _ _ _ _ Last) in Hin as [-> | Hin].
    + apply created_step_pending in Hst. congruence.
    + apply runEvents_loop.
      apply (loop_thread servers (map (newStep servers) chain)
               (created_steps_pending servers chain)
               _ _ _ _ _ steps k st v Run Hin Hst Hc Ho).
      lia.
Qed.

(** X5.  In every run, a failure shown on a step was also logged by the
    loop with the value thrown, and the error text of the step is the
    message of that value when it is an Error, "Unknown error"
    otherwise. *)
Theorem recorded_failure_is_logged
    (clock : nat -> Z) (random : nat -> Q) (actions : string -> option Action)
    (servers : list MCPServer.t) (chain : list string) (w : World) :
  exists w' E,
    executeChain clock random actions servers chain w = (Normal tt, w')
    /\ trace w' = trace w ++ E
    /\ forall steps k st,
         In (EvSetSteps steps) E ->
         nth_error steps k = Some st ->
         ExecutionStep.status st = failed ->
         exists e,
           ExecutionStep.error st = Some (messageOr "Unknown error" e)
           /\ In (EvConsole Err (stepFailedMsg k) (Some e)) E.
Proof.
  destruct (Nat.eqb_spec (List.length chain) 0) as [Len|Len].
  - apply length_zero_iff_nil in Len. subst chain.
    eexists. exists [EvConsole Warn "No servers in orchestration chain" None].
    split; [reflexivity|]. split; [reflexivity|].
    intros steps k st [H|[]]. discriminate H.
  - assert (NE : chain <> []) by (intros ->; now apply Len).
    destruct (run_and_loop clock random actions servers chain w NE)
      as (p' & w1 & E & _ & Run & _ & _ & Last & Exec).
    eexists. eexists. split; [exact Exec|]. split; [reflexivity|].
    intros steps k st Hin Hst Hc.
    apply (run_snapshot _ _ _ _ _ Last) in Hin as [-> | Hin].
    + apply created_step_pending in Hst. congruence.
    + destruct (loop_failure_logged servers (map (newStep servers) chain)
                  (created_steps_pending servers chain)
                  _ _ _ _ steps k st Run Hin Hst Hc) as (e & He & Hl).
      exists e. split; [exact He|]. now apply runEvents_loop.
Qed.

(* ================================================================== *)
(** ** The state a run leaves *)
(* ================================================================== *)

Section Settling.

Variable clock : nat -> Z.
Variable random : nat -> Q.
Variable actions : string -> option Action.
Variable servers : list MCPServer.t.
Variable currentSteps : list ExecutionStep.t.

Lemma iteration_settles i p p1 E o :
  Iteration servers currentSteps i p p1 E o ->
  match o with
  | Some fin => settledBy currentSteps i fin
  | None => True
  end.
Proof.
  intros It.
  destruct It as [e U | server now data d R ran fin | server now e d R ran fin];
    [exact I | |];
    destruct R as (st & Hst & _);
    assert (Hran : nth_error ran i = Some (ExecutionStep.toRunning st now))
      by (unfold ran; now rewrite updateAt_nth_error, Hst, Nat.eqb_refl);
    (split;
     [eapply agreesOff_trans; [apply updateAt_agreesOff|];
      apply updateAt_agreesOff
     | unfold fin; rewrite (statusAt_updateAt _ _ _ _ Hran); cbn; auto]).
Qed.

(** The step list a loop leaves is the one it found, or one settled by
    one of its turns: no turn leaves its step running. *)
Lemma forLoop_settles indices :
  forall p w,
  exists p' w',
    forLoop clock random actions servers currentSteps indices p w
    = (Normal p', w')
    /\ (executionSteps (ui w') = executionSteps (ui w)
        \/ exists i, In i indices
                     /\ settledBy currentSteps i (executionSteps (ui w'))).
Proof.
  induction indices as [|i rest IH]; intros p w.
  - exists p, w. split; [reflexivity | now left].
  - destruct (forLoop_cons clock random actions servers currentSteps i rest p w)
      as (p1 & w1 & E1 & o & -> & It & _ & U1).
    destruct (IH p1 w1) as (p' & w' & -> & Fin).
    exists p', w'. split; [reflexivity|].
    destruct Fin as [Same | (j & Hj & S)].
    + rewrite Same, U1. cbn [executionSteps].
      pose proof (iteration_settles _ _ _ _ _ It) as St.
      destruct o as [fin|]; cbn [stepsAfter].
      * right. exists i. split; [now left | exact St].
      * now left.
    + right. exists j. split; [now right | exact S].
Qed.

End Settling.

Lemma countCompleted_pending (steps : list ExecutionStep.t) :
  (forall k s, statusAt steps k = Some s -> s = pending) ->
  countCompleted steps = 0.
Proof.
  unfold countCompleted.
  induction steps as [|x steps IH]; intros H; [reflexivity|].
  cbn. rewrite (H 0 (ExecutionStep.status x) eq_refl). cbn.
  apply IH. intros k s Hk. exact (H (S k) s Hk).
Qed.

(** A list that differs from a list of pending steps at one index holds
    one completed step at most. *)
Lemma countCompleted_agreesOff (base : list ExecutionStep.t) :
  (forall k s, statusAt base k = Some s -> s = pending) ->
  forall steps i,
    List.length steps = List.length base ->
    agreesOff i steps base ->
    countCompleted steps <= 1.
Proof.
  induction base as [|y base IH]; intros Pend steps i Len Agree.
  - destruct steps; [cbn; lia | discriminate Len].
  - destruct steps as [|x steps]; [discriminate Len|].
    injection Len as Len.
    assert (PendT : forall k s, statusAt base k = Some s -> s = pending).
    { intros k s Hk. exact (Pend (S k) s Hk). }
    destruct i as [|i].
    + assert (countCompleted steps = 0) as Z0.
      { apply countCompleted_pending. intros k s Hk. apply (PendT k).
        pose proof (Agree (S k) (Nat.neq_succ_0 k)) as Ag. cbn in Ag.
        unfold statusAt in *. now rewrite <- Ag. }
      unfold countCompleted in *. cbn.
      destruct (StepStatus_eqb (ExecutionStep.status x) completed); cbn; lia.
    + assert (x = y) as ->.
      { specialize (Agree 0). cbn in Agree. now injection (Agree (Nat.neq_0_succ i)). }
      specialize (IH PendT steps i Len).
      assert (agreesOff i steps base) as A.
      { intros k Hk. apply (Agree (S k)). lia. }
      specialize (IH A).
      unfold countCompleted in *. cbn.
      rewrite (Pend 0 (ExecutionStep.status y) eq_refl). cbn. exact IH.
Qed.

Lemma getStepIcon_spinner status isActive :
  getStepIcon status isActive = Spinner -> status = running.
Proof. destruct status, isActive; cbn; congruence. Qed.

(** X6.  A run of a chain that is not empty leaves the component at
    rest: it is not executing, no step is current, no step is left
    running, and so no step is drawn with the spinner. *)
Theorem run_ends_at_rest
    (clock : nat -> Z) (random : nat -> Q) (actions : string -> option Action)
    (servers : list MCPServer.t) (chain : list string) (w : World) :
  chain <> [] ->
  exists w',
    executeChain clock random actions servers chain w = (Normal tt, w')
    /\ isExecuting (ui w') = false
    /\ currentStepIndex (ui w') = (-1)%Z
    /\ (forall k, statusAt (executionSteps (ui w')) k <> Some running)
    /\ (forall k st, nth_error (executionSteps (ui w')) k = Some st ->
                     iconOf (ui w') k st <> Spinner).
Proof.
  intros NE.
  destruct (forLoop_settles clock random actions servers
              (map (newStep servers) chain) (seq 0 (List.length chain)) VNull
              (loopStart servers chain w))
    as (p' & w1 & Loop & Fin).
  eexists. split.
  { exact (executeChain_from_loop clock random actions servers chain
             w p' w1 NE Loop). }
  cbn [ui isExecuting currentStepIndex executionSteps].
  split; [reflexivity|]. split; [reflexivity|].
  assert (NoRun : forall k, statusAt (executionSteps (ui w1)) k <> Some running).
  { intros k Hk.
    destruct Fin as [Same | (i & _ & Agree & St)].
    - rewrite Same in Hk. cbn in Hk.
      apply created_steps_pending in Hk. discriminate Hk.
    - destruct (Nat.eq_dec k i) as [->|Hne].
      + destruct St as [St|St]; congruence.
      + unfold statusAt in Hk. rewrite (Agree k Hne) in Hk.
        apply created_steps_pending in Hk. discriminate Hk. }
  split; [exact NoRun|].
  intros k st Hst Hicon. apply getStepIcon_spinner in Hicon.
  apply (NoRun k). unfold statusAt. now rewrite Hst, <- Hicon.
Qed.

Lemma run_ends_at_rest_witness :
  exists w',
    demoRun ["gone"; "s1"] = (Normal tt, w')
    /\ isExecuting (ui w') = false
    /\ currentStepIndex (ui w') = (-1)%Z
    /\ (forall k, statusAt (executionSteps (ui w')) k <> Some running)
    /\ (forall k st, nth_error (executionSteps (ui w')) k = Some st ->
                     iconOf (ui w') k st <> Spinner).
Proof.
  apply (run_ends_at_rest demoClock demoRandom mockServerExecutions
           demoServers ["gone"; "s1"] freshWorld).
  discriminate.
Defined.

(** X7.  Whatever the chain, the catalog and the actions, the step list a
    run leaves holds one step at most that is not pending, so the
    completed count of the outcome is 0 or 1. *)
Theorem at_most_one_step_finished
    (clock : nat -> Z) (random : nat -> Q) (actions : string -> option Action)
    (servers : list MCPServer.t) (chain : list string) (w : World) :
  chain <> [] ->
  exists w' r i,
    executeChain clock random actions servers chain w = (Normal tt, w')
    /\ executionResults (ui w') = Some r
    /\ (forall k, k <> i -> k < List.length chain ->
                  statusAt (executionSteps (ui w')) k = Some pending)
    /\ Results.completedSteps r <= 1.
Proof.
  intros NE.
  destruct (run_and_loop clock random actions servers chain w NE)
    as (p' & w1 & E & _ & Run & _ & L & Last & Exec).
  set (init := map (newStep servers) chain) in *.
  assert (Pend : forall k, k < List.length chain -> statusAt init k = Some pending).
  { intros k Hk. unfold statusAt, init. rewrite nth_error_map.
    destruct (nth_error chain k) eqn:Hn; [reflexivity|].
    apply nth_error_None in Hn. lia. }
  assert (Off : exists i, agreesOff i (executionSteps (ui w1)) init).
  { destruct Last as [Same | Seen].
    - exists 0. intros k _. now rewrite Same.
    - destruct (loop_snapshot servers init _ _ _ _ _ Run Seen)
        as (i & _ & _ & Agree & _).
      now exists i. }
  destruct Off as [i Agree].
  eexists. exists (outcomeOf chain (executionSteps (ui w1))), i.
  split; [exact Exec|]. cbn [ui executionResults executionSteps].
  split; [reflexivity|]. split.
  - intros k Hne Hk. unfold statusAt. rewrite (Agree k Hne). now apply Pend.
  - cbn. apply (countCompleted_agreesOff init
                  (created_steps_pending servers chain) _ i); [|exact Agree].
    rewrite L. unfold init. now rewrite length_map.
Qed.

Lemma at_most_one_step_finished_witness :
  exists w' r i,
    demoRun ["s1"; "s2"] = (Normal tt, w')
    /\ executionResults (ui w') = Some r
    /\ (forall k, k <> i -> k < 2 ->
                  statusAt (executionSteps (ui w')) k = Some pending)
    /\ Results.completedSteps r <= 1.
Proof.
  apply (at_most_one_step_finished demoClock demoRandom mockServerExecutions
           demoServers ["s1"; "s2"] freshWorld).
  discriminate.
Defined.

(* ================================================================== *)
(** ** Durations *)
(* ================================================================== *)

Lemma in_mapiFrom {A B : Type} (g : nat -> A -> B) (xs : list A) (y : B) :
  forall start, In y (mapiFrom g start xs) ->
                exists j x, In x xs /\ y = g j x.
Proof.
  induction xs as [|x xs IH]; intros start H; [contradiction|].
  destruct H as [<-|H].
  - exists start, x. split; [now left | reflexivity].
  - destruct (IH _ H) as (j & x' & Hx & ->). exists j, x'. split; [now right | reflexivity].
Qed.

Lemma in_updateAt i f steps s :
  In s (updateAt i f steps) ->
  In s steps \/ exists s0, In s0 steps /\ s = f s0.
Proof.
  intros H. apply in_mapiFrom in H as (j & x & Hx & ->).
  destruct (Nat.eqb j i); [right; eauto | now left].
Qed.

Lemma noPositiveDuration_updateAt i f steps :
  noPositiveDuration steps ->
  (forall s d, In s steps -> ExecutionStep.duration (f s) = Some d -> (d <= 0)%Z) ->
  noPositiveDuration (updateAt i f steps).
Proof.
  intros Ok Hf s d Hin Hd.
  apply in_updateAt in Hin as [Hin | (s0 & Hin & ->)]; eauto.
Qed.

Lemma endsAs_cases actions server i ran p now r d c fin :
  endsAs actions server i ran p now r d c fin ->
  (exists data,
      c = Normal data
      /\ fin = updateAt i (fun s => ExecutionStep.toCompleted s data d) ran)
  \/ (exists e,
        c = Abrupt e
        /\ fin = updateAt i
                   (fun s => ExecutionStep.toFailed s
                               (messageOr "Unknown error" e) d) ran).
Proof.
  unfold endsAs.
  destruct (actions (MCPServer.name server)) as [executeFn|];
    [destruct (executeFn p) as [e|result];
     [|destruct (getData result) as [e|data]]|];
    intros [-> ->]; eauto.
Qed.

Section Durations.

Variable clock : nat -> Z.
Variable random : nat -> Q.
Variable actions : string -> option Action.
Variable servers : list MCPServer.t.
Variable currentSteps : list ExecutionStep.t.

Hypothesis clockOk : nondecreasing clock.
Hypothesis untimed :
  forall k st, nth_error currentSteps k = Some st ->
               ExecutionStep.startTime st = None.
Hypothesis startOk : noPositiveDuration currentSteps.

Lemma forLoop_durations indices :
  forall p w,
    noPositiveDuration (executionSteps (ui w)) ->
    exists p' w' E,
      forLoop clock random actions servers currentSteps indices p w
      = (Normal p', w')
      /\ trace w' = trace w ++ E
      /\ noPositiveDuration (executionSteps (ui w'))
      /\ (forall steps, In (EvSetSteps steps) E -> noPositiveDuration steps).
Proof.
  induction indices as [|i rest IH]; intros p w Ok.
  - exists p, w, []. cbn. rewrite app_nil_r.
    split; [reflexivity|]. split; [reflexivity|]. split; [exact Ok|].
    intros steps [].
  - rewrite forLoop_step.
    destruct (unresolved_or_resolved servers (nth_error currentSteps i))
      as [U | (server & st & Hnth & Hid & Hsrv)].
    + match goal with
      | |- context [executeStep _ _ _ _ ?s i currentSteps p ?w0] =>
          destruct (executeStep_unresolved clock random actions servers s i
                      currentSteps p w0 U) as (e & ->)
      end.
      cbn [ui ticks draws trace].
      match goal with
      | |- context [forLoop _ _ _ _ currentSteps rest p ?w1] =>
          destruct (IH p w1) as (p' & w' & E & -> & T & Fin & Snap);
            [exact Ok|]
      end.
      cbn [trace] in T.
      exists p', w', ([EvCall i p; EvConsole Err (stepFailedMsg i) (Some e)] ++ E).
      split; [reflexivity|].
      split; [rewrite T, <- !app_assoc; reflexivity|].
      split; [exact Fin|].
      intros steps [H|[H|H]]; [discriminate H | discriminate H | now apply Snap].
    + rewrite Hnth.
      match goal with
      | |- context [executeStep _ _ _ _ _ i currentSteps p ?w0] =>
          destruct (executeStep_detail clock random actions servers server st
                      i currentSteps p w0 Hnth Hid Hsrv (untimed _ _ Hnth))
            as (c & w1 & a & fin & Ex & T1 & U1 & Ends)
      end.
      rewrite <- Hnth, Ex.
      cbn [ui ticks draws trace isExecuting executionSteps currentStepIndex
           executionResults] in T1, U1, Ends.
      set (ran := updateAt i
                    (fun s => ExecutionStep.toRunning s (clock (ticks w)))
                    currentSteps) in *.
      assert (RanOk : noPositiveDuration ran).
      { apply noPositiveDuration_updateAt; [exact startOk|].
        intros s d Hin Hd. exact (startOk s d Hin Hd). }
      assert (Dle : (clock a - clock (S a) <= 0)%Z).
      { pose proof (clockOk a (S a) (Nat.le_succ_diag_r a)). lia. }
      assert (FinOk : noPositiveDuration fin).
      { apply endsAs_cases in Ends
          as [(data & _ & ->) | (e & _ & ->)];
          (apply noPositiveDuration_updateAt; [exact RanOk|]);
          intros s d _ Hd; cbn in Hd; injection Hd as <-; exact Dle. }
      assert (Step : forall steps,
                 In (EvSetSteps steps) [EvCall i p; EvSetSteps ran; EvSetSteps fin] ->
                 noPositiveDuration steps).
      { intros steps [H|[H|[H|[]]]]; [discriminate H | |];
          injection H as <-; assumption. }
      destruct c as [out|e].
      * destruct (IH out w1) as (p' & w' & E & -> & T & Fin & Snap).
        { rewrite U1. exact FinOk. }
        exists p', w', ([EvCall i p; EvSetSteps ran; EvSetSteps fin] ++ E).
        split; [reflexivity|].
        split; [rewrite T, T1, <- !app_assoc; reflexivity|].
        split; [exact Fin|].
        intros steps H. apply in_app_or in H as [H|H]; auto.
      * match goal with
        | |- context [forLoop _ _ _ _ currentSteps rest p ?w2] =>
            destruct (IH p w2) as (p' & w' & E & -> & T & Fin & Snap)
        end.
        { cbn [ui]. rewrite U1. exact FinOk. }
        cbn [trace] in T.
        exists p', w',
          ([EvCall i p; EvSetSteps ran; EvSetSteps fin]
             ++ EvConsole Err (stepFailedMsg i) (Some e) :: E).
        split; [reflexivity|].
        split; [rewrite T, T1, <- !app_assoc; reflexivity|].
        split; [exact Fin|].
        intros steps H. apply in_app_or in H as [H|[H|H]];
          [auto | discriminate H | auto].
Qed.

End Durations.

Lemma sumDurations_nonpositive (steps : list ExecutionStep.t) :
  noPositiveDuration steps -> (sumDurations steps <= 0)%Z.
Proof.
  rewrite sumDurations_sum.
  induction steps as [|s steps IH]; intros Ok; cbn; [lia|].
  assert (durationOrZero s <= 0)%Z.
  { unfold durationOrZero.
    destruct (ExecutionStep.duration s) as [d|] eqn:Hd; [|lia].
    apply (Ok s d); [now left | exact Hd]. }
  assert (fold_right Z.add 0 (map durationOrZero steps) <= 0)%Z.
  { apply IH. intros s' d Hin. apply Ok. now right. }
  lia.
Qed.

Lemma created_steps_untimed servers chain k st :
  nth_error (map (newStep servers) chain) k = Some st ->
  ExecutionStep.startTime st = None.
Proof.
  rewrite nth_error_map. destruct (nth_error chain k); [|discriminate].
  cbn. now intros [= <-].
Qed.

Lemma created_steps_no_duration servers chain :
  noPositiveDuration (map (newStep servers) chain).
Proof.
  intros s d Hin Hd. apply in_map_iff in Hin as (entryId & <- & _).
  discriminate Hd.
Qed.

(** X8.  A step measures its duration as one reading of the clock minus
    the next one, its own start time being out of reach of the record it
    reads.  So with a clock that never goes back no duration is ever
    positive: not in any step list published during a run, not in the
    one the run leaves, and the total duration of the outcome is zero or
    less. *)
Theorem durations_never_positive
    (clock : nat -> Z) (random : nat -> Q) (actions : string -> option Action)
    (servers : list MCPServer.t) (chain : list string) (w : World) :
  nondecreasing clock ->
  chain <> [] ->
  exists w' E r total,
    executeChain clock random actions servers chain w = (Normal tt, w')
    /\ trace w' = trace w ++ E
    /\ (forall steps, In (EvSetSteps steps) E -> noPositiveDuration steps)
    /\ noPositiveDuration (executionSteps (ui w'))
    /\ executionResults (ui w') = Some r
    /\ Results.totalDuration r = Some total
    /\ (total <= 0)%Z.
Proof.
  intros Mono NE.
  destruct (forLoop_durations clock random actions servers
              (map (newStep servers) chain) Mono
              (created_steps_untimed servers chain)
              (created_steps_no_duration servers chain)
              (seq 0 (List.length chain)) VNull (loopStart servers chain w))
    as (p' & w1 & E & Loop & T & Fin & Snap).
  { exact (created_steps_no_duration servers chain). }
  eexists.
  exists (runEvents servers chain E (executionSteps (ui w1))).
  exists (outcomeOf chain (executionSteps (ui w1))).
  exists (sumDurations (executionSteps (ui w1))).
  split.
  { exact (executeChain_from_loop clock random actions servers chain
             w p' w1 NE Loop). }
  cbn [ui trace executionSteps executionResults].
  split.
  { rewrite T. unfold loopStart, runEvents. cbn [trace].
    rewrite <- !app_assoc. reflexivity. }
  split.
  { intros steps [H|H].
    - injection H as <-. apply created_steps_no_duration.
    - apply in_app_or in H as [H|[H|[H|[]]]];
        [now apply Snap | discriminate H | injection H as <-; exact Fin]. }
  split; [exact Fin|]. split; [reflexivity|]. split; [reflexivity|].
  now apply sumDurations_nonpositive.
Qed.

Lemma demoClock_nondecreasing : nondecreasing demoClock.
Proof.
  intros a b Hab. unfold demoClock.
  assert ((a + 2) / 3 <= (b + 2) / 3) by (apply Nat.Div0.div_le_mono; lia).
  lia.
Qed.

Lemma durations_never_positive_witness :
  exists w' E r total,
    demoRun ["s1"; "gone"; "s2"] = (Normal tt, w')
    /\ trace w' = trace freshWorld ++ E
    /\ (forall steps, In (EvSetSteps steps) E -> noPositiveDuration steps)
    /\ noPositiveDuration (executionSteps (ui w'))
    /\ executionResults (ui w') = Some r
    /\ Results.totalDuration r = Some total
    /\ (total <= 0)%Z.
Proof.
  apply (durations_never_positive demoClock demoRandom mockServerExecutions
           demoServers ["s1"; "gone"; "s2"] freshWorld).
  - exact demoClock_nondecreasing.
  - discriminate.
Defined.

(* ================================================================== *)
(** ** Which steps fail *)
(* ================================================================== *)

(** No mock of the table fails, whatever it is called with. *)
Lemma mock_never_fails : neverFails mockServerExecutions.
Proof.
  intros name executeFn input H. unfold mockServerExecutions in H.
  repeat match type of H with
         | (if ?b then _ else _) = _ => destruct b
         end;
    first [discriminate H
          | injection H as <-; eexists; eexists; split; reflexivity].
Qed.

(** The table the component reads never fails for a catalog none of whose
    servers is named after an inherited member. *)
Lemma lookup_never_fails_for inherited servers :
  (forall server, In server servers ->
                  inherited (MCPServer.name server) = None) ->
  neverFailsFor servers (lookupExecution inherited).
Proof.
  intros Own server executeFn input Hin H. unfold lookupExecution in H.
  destruct (mockServerExecutions (MCPServer.name server)) as [f|] eqn:M.
  - injection H as <-. exact (mock_never_fails _ _ input M).
  - rewrite (Own server Hin) in H. discriminate H.
Qed.

Lemma endsAs_sure actions server i ran p now r d c fin :
  (forall executeFn,
     actions (MCPServer.name server) = Some executeFn ->
     exists result data,
       executeFn p = inr result /\ getData result = inr data) ->
  endsAs actions server i ran p now r d c fin ->
  exists data,
    c = Normal data
    /\ fin = updateAt i (fun s => ExecutionStep.toCompleted s data d) ran.
Proof.
  intros NF. unfold endsAs.
  destruct (actions (MCPServer.name server)) as [executeFn|] eqn:A.
  - destruct (NF _ eq_refl) as (result & data & -> & ->). intros [-> ->]. eauto.
  - intros [-> ->]. eauto.
Qed.


Lemma loop_unresolved_fails servers currentSteps indices p E p' k :
  LoopRun servers currentSteps indices p E p' ->
  In k indices -> unresolved servers (nth_error currentSteps k) ->
  stepFailed E k.
Proof.
  induction 1 as [|i rest p p1 p2 E1 E2 o It _ IH]; [contradiction|].
  intros [<-|Hk] U; apply stepFailed_app.
  - left. destruct It as [e _ | server now data d R ran fin
                          | server now e d R ran fin].
    + exists e. cbn. auto.
    + elim (resolved_not_unresolved _ _ _ R U).
    + elim (resolved_not_unresolved _ _ _ R U).
  - right. auto.
Qed.

Section SureActions.

Variable clock : nat -> Z.
Variable random : nat -> Q.
Variable actions : string -> option Action.
Variable servers : list MCPServer.t.
Variable currentSteps : list ExecutionStep.t.

Hypothesis sure : neverFailsFor servers actions.
Hypothesis untimed :
  forall k st, nth_error currentSteps k = Some st ->
               ExecutionStep.startTime st = None.

(** With actions that never fail for the servers of the catalog, the loop
    logs the failure of the steps it cannot resolve, and of no other. *)
Lemma forLoop_sure indices :
  forall p w,
    exists p' w' E,
      forLoop clock random actions servers currentSteps indices p w
      = (Normal p', w')
      /\ trace w' = trace w ++ E
      /\ (forall k, stepFailed E k ->
                    unresolved servers (nth_error currentSteps k)).
Proof.
  induction indices as [|i rest IH]; intros p w.
  - exists p, w, []. cbn. rewrite app_nil_r.
    split; [reflexivity|]. split; [reflexivity|]. intros k [e []].
  - rewrite forLoop_step.
    destruct (unresolved_or_resolved servers (nth_error currentSteps i))
      as [U | (server & st & Hnth & Hid & Hsrv)].
    + match goal with
      | |- context [executeStep _ _ _ _ ?s i currentSteps p ?w0] =>
          destruct (executeStep_unresolved clock random actions servers s i
                      currentSteps p w0 U) as (e & ->)
      end.
      cbn [ui ticks draws trace].
      match goal with
      | |- context [forLoop _ _ _ _ currentSteps rest p ?w1] =>
          destruct (IH p w1) as (p' & w' & E & -> & T & Fails)
      end.
      cbn [trace] in T.
      exists p', w', ([EvCall i p; EvConsole Err (stepFailedMsg i) (Some e)] ++ E).
      split; [reflexivity|].
      split; [rewrite T, <- !app_assoc; reflexivity|].
      intros k F. apply stepFailed_app in F as [(e' & F)|F]; [|auto].
      destruct F as [F|[F|[]]]; [discriminate F|].
      apply console_msg_inj, stepFailedMsg_inj in F. now subst k.
    + rewrite Hnth.
      match goal with
      | |- context [executeStep _ _ _ _ _ i currentSteps p ?w0] =>
          destruct (executeStep_detail clock random actions servers server st
                      i currentSteps p w0 Hnth Hid Hsrv (untimed _ _ Hnth))
            as (c & w1 & a & fin & Ex & T1 & _ & Ends)
      end.
      rewrite <- Hnth, Ex.
      assert (Sure : forall executeFn,
                 actions (MCPServer.name server) = Some executeFn ->
                 exists result data,
                   executeFn p = inr result /\ getData result = inr data).
      { intros executeFn A.
        apply (sure server executeFn p); [|exact A].
        exact (proj1 (find_some _ _ Hsrv)). }
      destruct (endsAs_sure _ _ _ _ _ _ _ _ _ _ Sure Ends)
        as (data & -> & _).
      destruct (IH data w1) as (p' & w' & E & -> & T & Fails).
      cbn [ui ticks draws trace] in T1.
      exists p', w',
        ([EvCall i p;
          EvSetSteps
            (updateAt i (fun s => ExecutionStep.toRunning s (clock (ticks w)))
                      currentSteps);
          EvSetSteps fin] ++ E).
      split; [reflexivity|].
      split; [rewrite T, T1, <- !app_assoc; reflexivity|].
      intros k F. apply stepFailed_app in F as [(e' & F)|F]; [|auto].
      destruct F as [F|[F|[F|[]]]]; discriminate F.
Qed.

End SureActions.

Lemma created_step_unresolved servers chain k entryId :
  nth_error chain k = Some entryId ->
  (unresolved servers (nth_error (map (newStep servers) chain) k)
   <-> entryMissing servers entryId).
Proof.
  intros H. rewrite nth_error_map, H. cbn. reflexivity.
Qed.

(** X9.  With an action table that never fails for the names of the
    catalog's servers, the loop reports the failure of a step exactly when
    its identifier is empty or absent from the catalog. *)
Theorem steps_fail_only_when_missing
    (clock : nat -> Z) (random : nat -> Q) (actions : string -> option Action)
    (servers : list MCPServer.t) (chain : list string) (w : World) :
  neverFailsFor servers actions ->
  exists w' E,
    executeChain clock random actions servers chain w = (Normal tt, w')
    /\ trace w' = trace w ++ E
    /\ forall k entryId,
         nth_error chain k = Some entryId ->
         (stepFailed E k <-> entryMissing servers entryId).
Proof.
  intros Sure.
  destruct (Nat.eqb_spec (List.length chain) 0) as [Len|Len].
  - apply length_zero_iff_nil in Len. subst chain.
    eexists. exists [EvConsole Warn "No servers in orchestration chain" None].
    split; [reflexivity|]. split; [reflexivity|].
    intros k entryId H. destruct k; discriminate H.
  - assert (NE : chain <> []) by (intros ->; now apply Len).
    destruct (run_and_loop clock random actions servers chain w NE)
      as (p' & w1 & E & Loop & Run & T & _ & _ & Exec).
    destruct (forLoop_sure clock random actions servers
                (map (newStep servers) chain) Sure
                (created_steps_untimed servers chain)
                (seq 0 (List.length chain)) VNull (loopStart servers chain w))
      as (p2 & w2 & E2 & Loop2 & T2 & Fails).
    rewrite Loop in Loop2. injection Loop2 as _ <-.
    rewrite T in T2. apply app_inv_head in T2. subst E2.
    eexists. eexists. split; [exact Exec|]. split; [reflexivity|].
    intros k entryId Hk.
    rewrite <- (created_step_unresolved servers chain k entryId Hk).
    assert (InLoop : stepFailed
                       (runEvents servers chain E (executionSteps (ui w1))) k
                     <-> stepFailed E k).
    { split.
      - intros (e & [H|H]); [discriminate H|].
        apply in_app_or in H as [H|H]; [now exists e|].
        destruct H as [H|[H|[]]]; discriminate H.
      - intros (e & H). exists e. now apply runEvents_loop. }
    rewrite InLoop. split; [apply Fails|].
    apply (loop_unresolved_fails _ _ _ _ _ _ k Run).
    apply in_seq. split; [lia|]. cbn.
    apply nth_error_Some. congruence.
Qed.

Lemma steps_fail_only_when_missing_witness :
  exists w' E,
    executeChain demoClock demoRandom (lookupExecution inheritedProto)
      demoServers ["s1"; "gone"; "s2"] freshWorld
    = (Normal tt, w')
    /\ trace w' = trace freshWorld ++ E
    /\ forall k entryId,
         nth_error ["s1"; "gone"; "s2"] k = Some entryId ->
         (stepFailed E k <-> entryMissing demoServers entryId).
Proof.
  apply (steps_fail_only_when_missing demoClock demoRandom
           (lookupExecution inheritedProto) demoServers
           ["s1"; "gone"; "s2"] freshWorld).
  apply lookup_never_fails_for.
  intros server [<-|[<-|[]]]; reflexivity.
Defined.



(* ================================================================== *)
(** ** Servers without a mock *)
(* ================================================================== *)

Lemma binade_le (x : Q) : (0 < x)%Q -> (2 ^ binade x <= x)%Q.
Proof.
  intros Pos. unfold binade.
  destruct (Qle_bool (2 ^ (Z.log2 (Qnum x) - Z.log2 (Z.pos (Qden x)))) x) eqn:T.
  - now apply Qle_bool_iff.
  - clear T. destruct x as [n d]. cbn [Qnum Qden].
    assert (Hn : (0 < n)%Z).
    { unfold Qlt in Pos. cbn in Pos. lia. }
    destruct (Z.log2_spec n Hn) as [Ln _].
    destruct (Z.log2_spec (Z.pos d) (Pos2Z.is_pos d)) as [_ Ld].
    pose proof (Z.log2_nonneg n) as Nn.
    pose proof (Z.log2_nonneg (Z.pos d)) as Nd.
    set (ln := Z.log2 n) in *. set (ld := Z.log2 (Z.pos d)) in *.
    replace (ln - ld - 1)%Z with (ln - Z.succ ld)%Z by lia.
    rewrite Qpower_minus by discriminate.
    rewrite <- (Zpower_Qpower 2 ln Nn).
    rewrite <- (Zpower_Qpower 2 (Z.succ ld)) by lia.
    assert (Hb : (0 < 2 ^ Z.succ ld)%Z) by (apply Z.pow_pos_nonneg; lia).
    destruct (2 ^ Z.succ ld)%Z as [|b|b] eqn:Eb; try lia.
    rewrite <- Qmake_Qdiv. unfold Qle. cbn [Qnum Qden]. nia.
Qed.

Lemma binade_small (x : Q) : (0 < x)%Q -> (x < 16)%Q -> (binade x <= 3)%Z.
Proof.
  intros Pos Lt.
  pose proof (binade_le x Pos) as Le.
  destruct (Z.le_gt_cases (binade x) 3) as [H|H]; [exact H|].
  assert (M : (2 ^ 4 <= 2 ^ binade x)%Q).
  { apply Qpower_le_compat_l; [lia | discriminate]. }
  assert (F : (2 ^ 4 == 16)%Q) by reflexivity.
  rewrite F in M. lra.
Qed.

Lemma roundHalfEven_le (y : Q) : (inject_Z (roundHalfEven y) <= y + (1 # 2))%Q.
Proof.
  unfold roundHalfEven.
  pose proof (Qfloor_le y) as Fl.
  assert (Up : (inject_Z (Qfloor y + 1) == inject_Z (Qfloor y) + 1)%Q)
    by (rewrite inject_Z_plus; reflexivity).
  destruct (Qcompare_spec (y - inject_Z (Qfloor y)) (1 # 2)) as [E|L|G].
  - destruct (Z.even (Qfloor y)); [lra | rewrite Up; lra].
  - lra.
  - rewrite Up. lra.
Qed.

Lemma roundHalfEven_nonneg (y : Q) : (0 <= y)%Q -> (0 <= roundHalfEven y)%Z.
Proof.
  intros Pos. unfold roundHalfEven.
  assert (F : (0 <= Qfloor y)%Z).
  { rewrite <- (Qfloor_Z 0). now apply Qfloor_resp_le. }
  destruct (Qcompare _ _); [destruct (Z.even _)| |]; lia.
Qed.

Lemma roundPositive_bounds (x : Q) :
  (0 < x)%Q -> (x < 16)%Q ->
  (0 <= roundPositive x)%Q /\ (roundPositive x <= x + (1 # 1125899906842624))%Q.
Proof.
  intros Pos Lt. unfold roundPositive.
  pose proof (binade_small x Pos Lt) as Small.
  set (e := (Z.max (binade x) (-1022) - 52)%Z).
  assert (He : (e <= -49)%Z) by (unfold e; lia).
  assert (Qp : (0 < 2 ^ e)%Q) by (apply Qpower_0_lt; reflexivity).
  assert (Qs : (2 ^ e <= 2 ^ (-49))%Q).
  { apply Qpower_le_compat_l; [exact He | discriminate]. }
  assert (F : (2 ^ (-49) == 2 # 1125899906842624)%Q) by reflexivity.
  rewrite F in Qs.
  set (q := (2 ^ e)%Q) in *.
  assert (Yp : (0 <= x / q)%Q).
  { apply Qle_shift_div_l; [exact Qp | lra]. }
  pose proof (roundHalfEven_nonneg _ Yp) as Rn.
  pose proof (roundHalfEven_le (x / q)) as Rl.
  set (m := roundHalfEven (x / q)) in *.
  assert (Mn : (0 <= inject_Z m)%Q).
  { change 0%Q with (inject_Z 0). rewrite <- Zle_Qle. exact Rn. }
  split.
  - apply Qmult_le_0_compat; lra.
  - assert (S1 : (inject_Z m * q <= (x / q + (1 # 2)) * q)%Q).
    { apply Qmult_le_compat_r; lra. }
    assert (S2 : ((x / q + (1 # 2)) * q == x + (1 # 2) * q)%Q).
    { field. intros Z0. lra. }
    rewrite S2 in S1. lra.
Qed.

Lemma operations_in_range (r : Q) :
  (0 <= r)%Q -> (r <= 1 - (1 # 9007199254740992))%Q ->
  (1 <= operationsPerformed r <= 10)%Z.
Proof.
  intros Lo Hi. unfold operationsPerformed, roundToDouble.
  destruct (Qcompare_spec (r * inject_Z 10) 0) as [E|L|G].
  - cbn. lia.
  - exfalso. assert (0 <= r * inject_Z 10)%Q by (apply Qmult_le_0_compat; [exact Lo | discriminate]). lra.
  - assert (X : (r * inject_Z 10 < 16)%Q).
    { assert (T : (inject_Z 10 == 10)%Q) by reflexivity. rewrite T. lra. }
    destruct (roundPositive_bounds _ G X) as [P0 P1].
    set (y := roundPositive (r * inject_Z 10)) in *.
    assert (F0 : (0 <= Qfloor y)%Z).
    { rewrite <- (Qfloor_Z 0). now apply Qfloor_resp_le. }
    assert (F1 : (Qfloor y < 10)%Z).
    { rewrite Zlt_Qlt. pose proof (Qfloor_le y) as Fl.
      assert (T : (inject_Z 10 == 10)%Q) by reflexivity.
      rewrite T in *. lra. }
    lia.
Qed.

(** The double written 0.7 lies below seven tenths, yet its product with
    10 is the double 7: the exact product is halfway between 7 and the
    double before it, and the tie goes to 7. *)
Example operations_at_seven_tenths :
  Qfloor ((6305039478318694 # 9007199254740992) * inject_Z 10) = 6%Z
  /\ operationsPerformed (6305039478318694 # 9007199254740992) = 8%Z.
Proof. split; vm_compute; reflexivity. Qed.

(** X11.  A step whose server is in the catalog and for whose name the
    lookup in the action table yields nothing never blocks the chain: it
    is completed with a made-up output that names the server, carries the
    clock reading, says "completed" and counts
    [Math.floor(Math.random() * 10) + 1] operations, a number between 1
    and 10 as [Math.random] returns a double below 1 (the largest of
    which is 1 - 2^-53). *)
Theorem server_without_action_completes
    (clock : nat -> Z) (random : nat -> Q) (actions : string -> option Action)
    (servers : list MCPServer.t) (steps : list ExecutionStep.t) (i : nat)
    (st : ExecutionStep.t) (server : MCPServer.t) (p : value) (w : World) :
  nth_error steps i = Some st ->
  ExecutionStep.serverId st <> "" ->
  findServer servers (ExecutionStep.serverId st) = Some server ->
  ExecutionStep.startTime st = None ->
  actions (MCPServer.name server) = None ->
  (forall k, 0 <= random k /\ random k <= 1 - (1 # 9007199254740992))%Q ->
  exists w' now operations st',
    executeStep clock random actions servers (nth_error steps i) i steps p w
    = (Normal (VObj [("server_name", VStr (MCPServer.name server));
                     ("execution_time", VNum now);
                     ("status", VStr "completed");
                     ("operations_performed", VNum operations)]),
       w')
    /\ now = clock (S (ticks w))
    /\ operations = operationsPerformed (random (S (draws w)))
    /\ (1 <= operations <= 10)%Z
    /\ nth_error (executionSteps (ui w')) i = Some st'
    /\ ExecutionStep.status st' = completed
    /\ ExecutionStep.output st'
       = Some (VObj [("server_name", VStr (MCPServer.name server));
                     ("execution_time", VNum now);
                     ("status", VStr "completed");
                     ("operations_performed", VNum operations)])
    /\ ExecutionStep.error st' = ExecutionStep.error st.
Proof.
  intros Hnth Hid Hsrv Hst Hact Hrand.
  destruct (executeStep_detail clock random actions servers server st i steps
              p w Hnth Hid Hsrv Hst)
    as (c & w' & a & fin & Ex & _ & U & Ends).
  unfold endsAs in Ends. rewrite Hact in Ends. destruct Ends as [-> ->].
  exists w', (clock (S (ticks w))),
    (operationsPerformed (random (S (draws w)))).
  eexists.
  split; [exact Ex|].
  split; [reflexivity|]. split; [reflexivity|].
  split; [apply operations_in_range; apply Hrand|].
  rewrite U. cbn [executionSteps].
  rewrite !updateAt_nth_error, Hnth, Nat.eqb_refl. cbn [option_map].
  split; [reflexivity|]. repeat split; reflexivity.
Qed.

Lemma server_without_action_completes_witness :
  exists w' now operations st',
    executeStep demoClock demoRandom mockServerExecutions
      [MCPServer.mk "x" "custom-tool" "A server of another kind"]
      (nth_error [ExecutionStep.mk "step-x" "x" "custom-tool" pending
                    None None None None None] 0)
      0
      [ExecutionStep.mk "step-x" "x" "custom-tool" pending
         None None None None None]
      VNull freshWorld
    = (Normal (VObj [("server_name", VStr "custom-tool");
                     ("execution_time", VNum now);
                     ("status", VStr "completed");
                     ("operations_performed", VNum operations)]),
       w')
    /\ now = demoClock 1
    /\ operations = operationsPerformed (demoRandom 1)
    /\ (1 <= operations <= 10)%Z
    /\ nth_error (executionSteps (ui w')) 0 = Some st'
    /\ ExecutionStep.status st' = completed
    /\ ExecutionStep.output st'
       = Some (VObj [("server_name", VStr "custom-tool");
                     ("execution_time", VNum now);
                     ("status", VStr "completed");
                     ("operations_performed", VNum operations)])
    /\ ExecutionStep.error st' = None.
Proof.
  apply (server_without_action_completes demoClock demoRandom
           mockServerExecutions
           [MCPServer.mk "x" "custom-tool" "A server of another kind"]
           [ExecutionStep.mk "step-x" "x" "custom-tool" pending
              None None None None None]
           0
           (ExecutionStep.mk "step-x" "x" "custom-tool" pending
              None None None None None)
           (MCPServer.mk "x" "custom-tool" "A server of another kind")
           VNull freshWorld).
  - reflexivity.
  - discriminate.
  - reflexivity.
  - reflexivity.
  - reflexivity.
  - intros k. split; discriminate.
Defined.

(* ================================================================== *)
(** ** One step at a time *)
(* ================================================================== *)

(** X12.  In every step list a run publishes, one step at most is
    running. *)
Theorem one_running_step_at_most
    (clock : nat -> Z) (random : nat -> Q) (actions : string -> option Action)
    (servers : list MCPServer.t) (chain : list string) (w : World) :
  exists w' E,
    executeChain clock random actions servers chain w = (Normal tt, w')
    /\ trace w' = trace w ++ E
    /\ forall steps j k,
         In (EvSetSteps steps) E ->
         statusAt steps j = Some running ->
         statusAt steps k = Some running ->
         j = k.
Proof.
  destruct (Nat.eqb_spec (List.length chain) 0) as [Len|Len].
  - apply length_zero_iff_nil in Len. subst chain.
    eexists. exists [EvConsole Warn "No servers in orchestration chain" None].
    split; [reflexivity|]. split; [reflexivity|].
    intros steps j k [H|[]]. discriminate H.
  - assert (NE : chain <> []) by (intros ->; now apply Len).
    destruct (run_and_loop clock random actions servers chain w NE)
      as (p' & w1 & E & _ & Run & _ & _ & Last & Exec).
    eexists. eexists. split; [exact Exec|]. split; [reflexivity|].
    intros steps j k Hin Hj Hk.
    apply (run_snapshot _ _ _ _ _ Last) in Hin as [-> | Hin].
    + apply created_steps_pending in Hj. discriminate Hj.
    + destruct (loop_snapshot servers _ _ _ _ _ steps Run Hin) as (i & _ & P).
      pose proof (created_steps_pending servers chain) as Pend.
      rewrite (published_own_index servers _ Pend i steps j running P Hj)
        by discriminate.
      rewrite (published_own_index servers _ Pend i steps k running P Hk)
        by discriminate.
      reflexivity.
Qed.

(* ================================================================== *)
(** ** What is logged for a rejected step *)
(* ================================================================== *)

Section Causes.

Variable clock : nat -> Z.
Variable random : nat -> Q.
Variable actions : string -> option Action.
Variable servers : list MCPServer.t.
Variable currentSteps : list ExecutionStep.t.

Lemma executeStep_rejected step i steps p w e :
  rejection servers step i = Some e ->
  executeStep clock random actions servers step i steps p w
  = (Abrupt e, mkWorld (ui w) (ticks w) (draws w) (trace w ++ [EvCall i p])).
Proof.
  unfold rejection, executeStep, bind, emit, throw. cbn.
  destruct step as [st|]; [|now intros [= <-]].
  destruct (String.eqb (ExecutionStep.serverId st) ""); [now intros [= <-]|].
  destruct (findServer servers (ExecutionStep.serverId st));
    [discriminate | now intros [= <-]].
Qed.

Lemma forLoop_causes indices :
  forall p w,
    exists p' w' E,
      forLoop clock random actions servers currentSteps indices p w
      = (Normal p', w')
      /\ trace w' = trace w ++ E
      /\ forall k e,
           In k indices ->
           rejection servers (nth_error currentSteps k) k = Some e ->
           In (EvConsole Err (stepFailedMsg k) (Some e)) E.
Proof.
  induction indices as [|i rest IH]; intros p w.
  - exists p, w, []. cbn. rewrite app_nil_r.
    split; [reflexivity|]. split; [reflexivity|]. intros k e [].
  - destruct (rejection servers (nth_error currentSteps i) i) as [e0|] eqn:Rej.
    + rewrite forLoop_step.
      rewrite (executeStep_rejected _ _ _ _ _ _ Rej).
      cbn [ui ticks draws trace].
      match goal with
      | |- context [forLoop _ _ _ _ currentSteps rest p ?w1] =>
          destruct (IH p w1) as (p' & w' & E & -> & T & Causes)
      end.
      cbn [trace] in T.
      exists p', w', ([EvCall i p; EvConsole Err (stepFailedMsg i) (Some e0)] ++ E).
      split; [reflexivity|].
      split; [rewrite T, <- !app_assoc; reflexivity|].
      intros k e [<-|Hk] Hr.
      * rewrite Rej in Hr. injection Hr as <-. right. now left.
      * right. right. now apply Causes.
    + destruct (forLoop_cons clock random actions servers currentSteps
                  i rest p w)
        as (p1 & w1 & E1 & o & -> & _ & T1 & _).
      destruct (IH p1 w1) as (p' & w' & E & -> & T & Causes).
      exists p', w', (E1 ++ E).
      split; [reflexivity|].
      split; [rewrite T, T1, <- app_assoc; reflexivity|].
      intros k e [<-|Hk] Hr.
      * rewrite Rej in Hr. discriminate Hr.
      * apply in_or_app. right. now apply Causes.
Qed.

End Causes.

(** X13.  In every run, the failure logged for a step the executor
    rejects names the check that failed: "Invalid step at index k" for an
    empty identifier, "Server not found: " followed by the identifier for
    one absent from the catalog. *)
Theorem rejected_step_logged_with_cause
    (clock : nat -> Z) (random : nat -> Q) (actions : string -> option Action)
    (servers : list MCPServer.t) (chain : list string) (w : World) :
  exists w' E,
    executeChain clock random actions servers chain w = (Normal tt, w')
    /\ trace w' = trace w ++ E
    /\ (forall k, nth_error chain k = Some "" ->
          In (EvConsole Err (stepFailedMsg k)
                (Some (ErrorObj ("Invalid step at index " ++ showNat k)))) E)
    /\ (forall k entryId,
          nth_error chain k = Some entryId -> entryId <> "" ->
          findServer servers entryId = None ->
          In (EvConsole Err (stepFailedMsg k)
                (Some (ErrorObj ("Server not found: " ++ entryId)))) E).
Proof.
  destruct (Nat.eqb_spec (List.length chain) 0) as [Len|Len].
  - apply length_zero_iff_nil in Len. subst chain.
    eexists. exists [EvConsole Warn "No servers in orchestration chain" None].
    split; [reflexivity|]. split; [reflexivity|].
    split; intros k; intros; destruct k; discriminate.
  - assert (NE : chain <> []) by (intros ->; now apply Len).
    destruct (forLoop_causes clock random actions servers
                (map (newStep servers) chain)
                (seq 0 (List.length chain)) VNull (loopStart servers chain w))
      as (p' & w1 & E & Loop & T & Causes).
    eexists. exists (runEvents servers chain E (executionSteps (ui w1))).
    split.
    { exact (executeChain_from_loop clock random actions servers chain
               w p' w1 NE Loop). }
    cbn [trace]. split.
    { rewrite T. unfold loopStart, runEvents. cbn [trace].
      rewrite <- !app_assoc. reflexivity. }
    assert (InSeq : forall k entryId, nth_error chain k = Some entryId ->
                      In k (seq 0 (List.length chain))).
    { intros k entryId H. apply in_seq. split; [lia|]. cbn.
      apply nth_error_Some. congruence. }
    split.
    + intros k Hk. apply runEvents_loop.
      apply (Causes k _ (InSeq _ _ Hk)).
      unfold rejection. rewrite nth_error_map, Hk. reflexivity.
    + intros k entryId Hk Hid Hsrv. apply runEvents_loop.
      apply (Causes k _ (InSeq _ _ Hk)).
      unfold rejection. rewrite nth_error_map, Hk. cbn.
      apply String.eqb_neq in Hid. now rewrite Hid, Hsrv.
Qed.

(* ================================================================== *)
(** ** Editing the chain *)
(* ================================================================== *)

Lemma remove_absent chain serverId :
  ~ In serverId chain -> removeFromOrchestration chain serverId = chain.
Proof.
  unfold removeFromOrchestration.
  induction chain as [|x chain IH]; intros H; [reflexivity|].
  cbn. destruct (String.eqb_spec x serverId) as [->|Hne].
  - elim H. now left.
  - cbn. rewrite IH; [reflexivity|]. intros Hin. apply H. now right.
Qed.

(** X14.  Removing an identifier undoes adding it: after an add followed
    by a remove of the same identifier the chain is what the remove alone
    would give, and the chain as it was when it did not hold the
    identifier; an added identifier is in the chain, a removed one is
    not. *)
Theorem remove_undoes_add (chain : list string) (serverId : string) :
  removeFromOrchestration (addToOrchestration chain serverId) serverId
  = removeFromOrchestration chain serverId
  /\ (~ In serverId chain ->
      removeFromOrchestration (addToOrchestration chain serverId) serverId
      = chain)
  /\ In serverId (addToOrchestration chain serverId)
  /\ ~ In serverId (removeFromOrchestration chain serverId).
Proof.
  assert (Eq : removeFromOrchestration (addToOrchestration chain serverId)
                 serverId
               = removeFromOrchestration chain serverId).
  { unfold addToOrchestration.
    destruct (existsb (String.eqb serverId) chain); [reflexivity|].
    unfold removeFromOrchestration. rewrite filter_app. cbn.
    rewrite String.eqb_refl. cbn. apply app_nil_r. }
  split; [exact Eq|]. split; [|split].
  - intros H. rewrite Eq. now apply remove_absent.
  - unfold addToOrchestration.
    destruct (existsb (String.eqb serverId) chain) eqn:Ex.
    + apply existsb_exists in Ex as (x & Hx & Hxe).
      apply String.eqb_eq in Hxe. now subst x.
    + apply in_or_app. right. now left.
  - unfold removeFromOrchestration. intros H.
    apply filter_In in H as [_ H]. now rewrite String.eqb_refl in H.
Qed.

(* ================================================================== *)
(** ** Runs that show the general facts *)
(* ================================================================== *)

Lemma longer_chains_end_partial_witness :
  exists w' k r,
    demoRun ["s1"; "s2"] = (Normal tt, w')
    /\ k < 2
    /\ statusAt (executionSteps (ui w')) k = Some pending
    /\ executionResults (ui w') = Some r
    /\ Results.status r = partial.
Proof.
  apply (longer_chains_end_partial demoClock demoRandom mockServerExecutions
           demoServers ["s1"; "s2"] freshWorld).
  cbn. lia.
Defined.

Lemma missing_entry_never_marked_witness :
  exists w' E,
    demoRun ["gone"; "s1"] = (Normal tt, w')
    /\ trace w' = trace freshWorld ++ E
    /\ (forall steps, In (EvSetSteps steps) E ->
                      nth_error steps 0 = Some (newStep demoServers "gone"))
    /\ nth_error (executionSteps (ui w')) 0 = Some (newStep demoServers "gone")
    /\ ExecutionStep.status (newStep demoServers "gone") = pending
    /\ ExecutionStep.error (newStep demoServers "gone") = None.
Proof.
  apply (missing_entry_never_marked demoClock demoRandom mockServerExecutions
           demoServers ["gone"; "s1"] freshWorld 0 "gone").
  - reflexivity.
  - right. reflexivity.
Defined.

Lemma order_kept_when_all_resolve_witness :
  exists w' E,
    demoRun ["s1"; "s2"] = (Normal tt, w')
    /\ trace w' = trace freshWorld ++ E
    /\ SequentialOrder E.
Proof.
  apply (order_kept_when_all_resolve demoClock demoRandom mockServerExecutions
           demoServers ["s1"; "s2"] freshWorld).
  intros entryId [<-|[<-|[]]]; split; discriminate.
Defined.

(* ================================================================== *)
(** ** A run does not depend on what the component showed before *)
(* ================================================================== *)

Lemma appendsOnly_ret {A : Type} (a : A) : appendsOnly (ret a).
Proof.
  intros w. exists []. cbn. split; [now rewrite app_nil_r|].
  intros t. now rewrite app_nil_r.
Qed.

Lemma appendsOnly_throw {A : Type} (e : Thrown) : appendsOnly (@throw A e).
Proof.
  intros w. exists []. cbn. split; [now rewrite app_nil_r|].
  intros t. now rewrite app_nil_r.
Qed.

Lemma appendsOnly_emit (e : Event) : appendsOnly (emit e).
Proof.
  intros w. exists [e]. cbn. split; [reflexivity|]. intros t. reflexivity.
Qed.

Lemma appendsOnly_modifyUi f : appendsOnly (modifyUi f).
Proof.
  intros w. exists []. cbn. split; [now rewrite app_nil_r|].
  intros t. now rewrite app_nil_r.
Qed.

Lemma appendsOnly_getUi : appendsOnly getUi.
Proof.
  intros w. exists []. cbn. split; [now rewrite app_nil_r|].
  intros t. now rewrite app_nil_r.
Qed.

Lemma appendsOnly_dateNow clock : appendsOnly (dateNow clock).
Proof.
  intros w. exists []. cbn. split; [now rewrite app_nil_r|].
  intros t. now rewrite app_nil_r.
Qed.

Lemma appendsOnly_mathRandom random : appendsOnly (mathRandom random).
Proof.
  intros w. exists []. cbn. split; [now rewrite app_nil_r|].
  intros t. now rewrite app_nil_r.
Qed.

Lemma appendsOnly_bind {A B : Type} (m : Eff A) (k : A -> Eff B) :
  appendsOnly m -> (forall a, appendsOnly (k a)) -> appendsOnly (bind m k).
Proof.
  intros Hm Hk w. destruct (Hm w) as (E1 & T1 & R1).
  unfold bind. destruct (m w) as [[a|e] w1] eqn:Mw; cbn [fst snd] in *.
  - destruct (Hk a w1) as (E2 & T2 & R2).
    exists (E1 ++ E2). split.
    + now rewrite T2, T1, app_assoc.
    + intros t. rewrite R1, (R2 (t ++ E1)), app_assoc. reflexivity.
  - exists E1. split; [exact T1|]. intros t. now rewrite R1.
Qed.

Lemma appendsOnly_tryCatch {A : Type} (body : Eff A) handler :
  appendsOnly body -> (forall e, appendsOnly (handler e)) ->
  appendsOnly (tryCatch body handler).
Proof.
  intros Hm Hk w. destruct (Hm w) as (E1 & T1 & R1).
  unfold tryCatch. destruct (body w) as [[a|e] w1] eqn:Mw; cbn [fst snd] in *.
  - exists E1. split; [exact T1|]. intros t. now rewrite R1.
  - destruct (Hk e w1) as (E2 & T2 & R2).
    exists (E1 ++ E2). split.
    + now rewrite T2, T1, app_assoc.
    + intros t. rewrite R1, (R2 (t ++ E1)), app_assoc. reflexivity.
Qed.

Lemma appendsOnly_liftSum {A : Type} (r : Thrown + A) : appendsOnly (liftSum r).
Proof.
  destruct r; [apply appendsOnly_throw | apply appendsOnly_ret].
Qed.

Lemma appendsOnly_mapiFromM {A B : Type} (f : nat -> A -> Eff B) xs :
  (forall i x, appendsOnly (f i x)) ->
  forall start, appendsOnly (mapiFromM f start xs).
Proof.
  intros Hf. induction xs as [|x xs IH]; intros start; cbn.
  - apply appendsOnly_ret.
  - apply appendsOnly_bind; [apply Hf|]. intros y.
    apply appendsOnly_bind; [apply IH|]. intros ys. apply appendsOnly_ret.
Qed.

Lemma appendsOnly_atIndex {A : Type} k (g : A -> Eff A) :
  (forall s, appendsOnly (g s)) -> forall i s, appendsOnly (atIndex k g i s).
Proof.
  intros Hg i s. unfold atIndex. destruct (Nat.eqb i k);
    [apply Hg | apply appendsOnly_ret].
Qed.

Ltac appends_only :=
  repeat
    match goal with
    | |- appendsOnly (ret _) => apply appendsOnly_ret
    | |- appendsOnly (throw _) => apply appendsOnly_throw
    | |- appendsOnly (emit _) => apply appendsOnly_emit
    | |- appendsOnly (modifyUi _) => apply appendsOnly_modifyUi
    | |- appendsOnly getUi => apply appendsOnly_getUi
    | |- appendsOnly (dateNow _) => apply appendsOnly_dateNow
    | |- appendsOnly (mathRandom _) => apply appendsOnly_mathRandom
    | |- appendsOnly (liftSum _) => apply appendsOnly_liftSum
    | |- appendsOnly (mapiFromM _ _ _) =>
        apply appendsOnly_mapiFromM; intros ? ?
    | |- appendsOnly (atIndex _ _ _ _) => apply appendsOnly_atIndex; intros ?
    | |- appendsOnly (tryCatch _ _) => apply appendsOnly_tryCatch; [|intros ?]
    | |- appendsOnly (bind _ _) => apply appendsOnly_bind; [|intros ?]
    | |- appendsOnly (match ?x with _ => _ end) => destruct x
    end.

Section Blind.

Variable clock : nat -> Z.
Variable random : nat -> Q.
Variable actions : string -> option Action.
Variable servers : list MCPServer.t.

Lemma appendsOnly_elapsed step : appendsOnly (elapsed clock step).
Proof. unfold elapsed. appends_only. Qed.

Lemma appendsOnly_executeStep step i steps p :
  appendsOnly (executeStep clock random actions servers step i steps p).
Proof.
  unfold executeStep, genericExecution, mapiM, setExecutionSteps, sleep.
  pose proof appendsOnly_elapsed as El.
  appends_only; try apply El; appends_only.
Qed.

Lemma appendsOnly_forLoop currentSteps indices :
  forall p,
    appendsOnly (forLoop clock random actions servers currentSteps indices p).
Proof.
  induction indices as [|i rest IH]; intros p; cbn [forLoop].
  - apply appendsOnly_ret.
  - unfold setCurrentStepIndex, consoleError, sleep.
    apply appendsOnly_bind; [apply appendsOnly_modifyUi|]. intros _.
    apply appendsOnly_bind; [|intros p'; apply IH].
    apply appendsOnly_tryCatch.
    + apply appendsOnly_bind; [apply appendsOnly_executeStep|]. intros out.
      appends_only.
    + intros e. appends_only.
Qed.

Variable chain : list string.
Hypothesis nonEmpty : chain <> [].

Lemma run_from_same_inputs (w : World) :
  exists u n d E,
    forall w2, ticks w2 = ticks w -> draws w2 = draws w ->
      executeChain clock random actions servers chain w2
      = (Normal tt, mkWorld u n d (trace w2 ++ E)).
Proof.
  destruct (run_and_loop clock random actions servers chain w nonEmpty)
    as (p' & w1 & E0 & Loop & _ & T & _ & _ & _).
  destruct (appendsOnly_forLoop (map (newStep servers) chain)
              (seq 0 (List.length chain)) VNull (loopStart servers chain w))
    as (E & TE & Re).
  rewrite Loop in TE, Re. cbn [fst snd] in TE, Re.
  exists (mkState false (executionSteps (ui w1)) (-1)%Z
            (Some (outcomeOf chain (executionSteps (ui w1))))),
         (ticks w1), (draws w1),
         (EvSetSteps (map (newStep servers) chain)
          :: E ++ [EvComplete (executionSteps (ui w1));
                   EvSetSteps (executionSteps (ui w1))]).
  intros w2 Ht Hd.
  assert (Start : loopStart servers chain w2
                  = reTrace (loopStart servers chain w)
                      (trace w2 ++ [EvSetSteps (map (newStep servers) chain)])).
  { unfold loopStart, reTrace. cbn [ui ticks draws trace].
    now rewrite Ht, Hd. }
  pose proof (Re (trace w2 ++ [EvSetSteps (map (newStep servers) chain)]))
    as Loop2.
  rewrite <- Start in Loop2.
  rewrite (executeChain_from_loop clock random actions servers chain
             w2 p' _ nonEmpty Loop2).
  unfold reTrace. cbn [ui ticks draws trace].
  rewrite <- !app_assoc. reflexivity.
Qed.

End Blind.

(** X18.  A run of a chain that is not empty does not depend on what the
    component showed before it: from any two states of the component (at
    the same readings of the clock and of the random source) it completes
    with the same state and the same events, so that running again
    without a reset gives what a reset followed by a run gives. *)
Theorem run_forgets_earlier_state
    (clock : nat -> Z) (random : nat -> Q) (actions : string -> option Action)
    (servers : list MCPServer.t) (chain : list string) (w : World) :
  chain <> [] ->
  exists u n d E,
    (forall w2, ticks w2 = ticks w -> draws w2 = draws w ->
       executeChain clock random actions servers chain w2
       = (Normal tt, mkWorld u n d (trace w2 ++ E)))
    /\ resetThenRun clock random actions servers chain w
       = (Normal tt, mkWorld u n d (trace w ++ EvSetSteps [] :: E)).
Proof.
  intros NE.
  destruct (run_from_same_inputs clock random actions servers chain NE w)
    as (u & n & d & E & Same).
  exists u, n, d, E. split; [exact Same|].
  unfold resetThenRun, resetExecution.
  cbv beta iota delta
    [bind setIsExecuting setExecutionSteps setCurrentStepIndex
     setExecutionResults modifyUi emit].
  cbn [ui ticks draws trace isExecuting executionSteps currentStepIndex
       executionResults].
  rewrite Same; cbn [ticks draws trace]; [|reflexivity|reflexivity].
  rewrite <- app_assoc. reflexivity.
Qed.

Lemma run_forgets_earlier_state_witness :
  exists u n d E,
    (forall w2, ticks w2 = ticks freshWorld -> draws w2 = draws freshWorld ->
       executeChain demoClock demoRandom mockServerExecutions demoServers
         ["s1"; "gone"] w2
       = (Normal tt, mkWorld u n d (trace w2 ++ E)))
    /\ resetThenRun demoClock demoRandom mockServerExecutions demoServers
         ["s1"; "gone"] freshWorld
       = (Normal tt, mkWorld u n d (trace freshWorld ++ EvSetSteps [] :: E)).
Proof.
  apply (run_forgets_earlier_state demoClock demoRandom mockServerExecutions
           demoServers ["s1"; "gone"] freshWorld).
  discriminate.
Defined.
